(** * Robot trajectory-tracking simulation: the physics tick

    A shallow embedding of [src/components/RobotSimulation.tsx]
    ([getReferencePoint], [updatePhysics], the reset effect, the coordinate
    transform of [draw]), of the constants of [src/constants.ts] it reads,
    of the application shell that hosts it ([handleUpdate], the button
    handlers and [resetSim] of [App]) and of the window the charts plot.

    JavaScript numbers are modelled as real numbers ([R]): [Math.cos],
    [Math.sin], [Math.sqrt] and [Math.PI] are the functions and the constant
    of the Standard Library's reals, and rounding, overflow, NaN and signed
    zeros are outside the model.  The mutable refs of the component
    ([timeRef], [robotRef], [adaptiveParamsRef], [trailRef], [refTrailRef])
    are the fields of one state record, threaded explicitly through the
    tick; the [onUpdate] callback is the optional sample a tick returns. *)

From Stdlib Require Import Reals Lra Lia List ZArith Bool.
From Equations Require Import Equations.
Import ListNotations.

Open Scope R_scope.

(** ** Constants ([src/constants.ts]) *)

Module SIM_CONSTANTS.
Definition FPS : R := 60.
Definition TRAIL_LENGTH : nat := 200.
Definition CANVAS_WIDTH : R := 600.
Definition CANVAS_HEIGHT : R := 400.
Definition SCALE : R := 100.
End SIM_CONSTANTS.

Inductive TrajectoryType : Type :=
| CIRCLE
| FIGURE_EIGHT.

Definition TrajectoryType_eqb (a b : TrajectoryType) : bool :=
  match a, b with
  | CIRCLE, CIRCLE => true
  | FIGURE_EIGHT, FIGURE_EIGHT => true
  | _, _ => false
  end.

(** ** Data model ([src/types.ts] and the refs of the component) *)

Record ControlConfig : Type := mkConfig {
  isAdaptive : bool;
  hasLoad : bool;
  trajectory : TrajectoryType;
  isPlaying : bool
}.

(** An entry of a trail: [{x, y}]. *)
Record Point : Type := mkPoint {
  pt_x : R;
  pt_y : R
}.

(** [robotRef.current]: [{x, y, theta, v, w}]. *)
Record Robot : Type := mkRobot {
  robot_x : R;
  robot_y : R;
  robot_theta : R;
  robot_v : R;
  robot_w : R
}.

(** [adaptiveParamsRef.current]: [{thetaM, thetaI}]. *)
Record AdaptiveParams : Type := mkParams {
  thetaM : R;
  thetaI : R
}.

(** An element of [SimulationState['history']], the argument of [onUpdate]. *)
Record Sample : Type := mkSample {
  sample_time : R;
  sample_error : R;
  theta1 : R;
  theta2 : R
}.

(** The five refs of the component. *)
Record SimState : Type := mkState {
  timeRef : R;
  robotRef : Robot;
  adaptiveParamsRef : AdaptiveParams;
  trailRef : list Point;
  refTrailRef : list Point
}.

(** The values the refs are created with ([useRef(...)]). *)
Definition mountState : SimState :=
  mkState 0 (mkRobot 0 0 0 0 0) (mkParams 1.0 1.0) [] [].

(** The effect on [config.trajectory]: every ref is overwritten. *)
Definition resetSim (s : SimState) : SimState :=
  mkState 0 (mkRobot 0.2 0 0 0 0) (mkParams 1.0 1.0) [] [].

(** The effect also runs when the component mounts, before the first frame. *)
Definition initialState : SimState := resetSim mountState.

(** ** Built-in operations of the language *)

(** [Math.atan2(y, x)] on reals. *)
Definition atan2 (y x : R) : R :=
  if Rlt_dec 0 x then atan (y / x)
  else if Rlt_dec x 0 then
    if Rle_dec 0 y then atan (y / x) + PI else atan (y / x) - PI
  else if Rlt_dec 0 y then PI / 2
  else if Rlt_dec y 0 then - (PI / 2)
  else 0.

(** Truncation toward zero. *)
Definition Ztrunc (r : R) : Z :=
  if Rle_dec 0 r then Zfloor r else (- Zfloor (- r))%Z.

(** [a % b]: the remainder has the sign of the dividend. *)
Definition jsRem (a b : R) : R := a - b * IZR (Ztrunc (a / b)).

(** [Number(t.toFixed(1))]: one decimal, halves rounded away from zero. *)
Definition toFixed1 (t : R) : R :=
  if Rle_dec 0 t then IZR (Zfloor (t * 10 + 1 / 2)) / 10
  else - (IZR (Zfloor (- t * 10 + 1 / 2)) / 10).

(** [arr.push(p)]. *)
Definition push {A : Type} (l : list A) (p : A) : list A := l ++ [p].

(** [arr.shift()]: the first element is removed (nothing on an empty array). *)
Definition shift {A : Type} (l : list A) : list A := tl l.

(** ** [getReferencePoint] *)

Record RefPoint : Type := mkRef {
  ref_x : R;
  ref_y : R;
  ref_dx : R;
  ref_dy : R
}.

Definition getReferencePoint (config : ControlConfig) (t : R) : RefPoint :=
  let speed := 0.5 in
  if TrajectoryType_eqb (trajectory config) CIRCLE then
    let R0 := 0.8 in
    mkRef (R0 * cos (t * speed))
          (R0 * sin (t * speed))
          (- R0 * speed * sin (t * speed))
          (R0 * speed * cos (t * speed))
  else
    let a := 1.0 in
    let sint := sin (t * speed) in
    let cost := cos (t * speed) in
    let den := 1 + sint * sint in
    mkRef ((a * cost) / den)
          ((a * cost * sint) / den)
          ((- a * sint * (3 + sint * sint)) / (den * den) * speed)
          ((a * (1 - 3 * sint * sint)) / (den * den) * speed).

(** ** The angle normalisation loops of [updatePhysics]

    [while (angleDiff > Math.PI) angleDiff -= 2 * Math.PI;] and
    [while (angleDiff < -Math.PI) angleDiff += 2 * Math.PI;].  Each loop is a
    function defined by recursion on the number of turns left: the measure
    is what makes the definition total, the body is the loop's. *)

(** A turn taken off a positive number of turns leaves strictly fewer. *)
Ltac turn_decreases q :=
  let Hq := fresh "Hq" in
  assert (Hq : 0 < q) by (apply Rdiv_lt_0_compat; lra);
  destruct (archimed q) as [? _], (archimed (q - 1)) as [_ ?];
  assert (up (q - 1) < up q)%Z by (apply lt_IZR; lra);
  assert (0 < up q)%Z by (apply lt_IZR; lra);
  lia.

Equations? wrapDown (angleDiff : R) : R
  by wf (Z.to_nat (up (angleDiff / (2 * PI)))) lt :=
  wrapDown angleDiff with Rgt_dec angleDiff PI => {
    | left _ := wrapDown (angleDiff - 2 * PI);
    | right _ := angleDiff }.
Proof.
  pose proof PI_RGT_0 as Hpi.
  replace ((angleDiff - 2 * PI) / (2 * PI)) with (angleDiff / (2 * PI) - 1)
    by (field; lra).
  turn_decreases (angleDiff / (2 * PI)).
Qed.

Equations? wrapUp (angleDiff : R) : R
  by wf (Z.to_nat (up (- angleDiff / (2 * PI)))) lt :=
  wrapUp angleDiff with Rlt_dec angleDiff (- PI) => {
    | left _ := wrapUp (angleDiff + 2 * PI);
    | right _ := angleDiff }.
Proof.
  pose proof PI_RGT_0 as Hpi.
  replace (- (angleDiff + 2 * PI) / (2 * PI)) with (- angleDiff / (2 * PI) - 1)
    by (field; lra).
  turn_decreases (- angleDiff / (2 * PI)).
Qed.

(** The two loops in sequence, as [updatePhysics] runs them. *)
Definition normalizeAngle (angleDiff : R) : R := wrapUp (wrapDown angleDiff).

(** ** [updatePhysics]

    The local constants and variables of one running tick, in the order the
    source computes them. *)

Record Locals : Type := mkLocals {
  l_t : R;
  l_refX : R;
  l_refY : R;
  l_distError : R;
  l_angleDiff : R;
  l_cmdV : R;
  l_cmdW : R;
  l_realMass : R;
  l_thetaM : R;          (* [adaptiveParamsRef.current.thetaM] after the law *)
  l_actualV : R;
  l_actualW : R
}.

Definition dt : R := 1 / SIM_CONSTANTS.FPS.

Definition baseMass : R := 1.0.
Definition loadMass (config : ControlConfig) : R :=
  if hasLoad config then 2.5 else 0.0.
Definition realMass (config : ControlConfig) : R := baseMass + loadMass config.

Definition gamma : R := 0.5.
Definition sigma : R := 0.01.

(** The adaptation law: the [if (config.isAdaptive) ... else ...] statement,
    from the estimate read at the start of the tick to the one stored. *)
Definition adaptationLaw (config : ControlConfig) (distError thetaM0 : R) : R :=
  if isAdaptive config then
    let adaptationError :=
      if Rgt_dec distError 0.05 then realMass config - thetaM0 else 0 in
    thetaM0 + dt * (gamma * adaptationError - sigma * thetaM0)
  else 1.0.

(** The plant model: [dynamicsFactor], [skidFactor], [actualV], [actualW]. *)
Definition applyDynamics (cmdV cmdW thetaM' realMass : R) : R * R :=
  let dynamicsFactor := thetaM' / realMass in
  let skidFactor := 1.0 in
  (cmdV * dynamicsFactor * skidFactor, cmdW * dynamicsFactor * skidFactor).

Definition physicsLocals (config : ControlConfig) (s : SimState) : Locals :=
  let t := timeRef s + dt in
  (* 1. desired state *)
  let ref := getReferencePoint config t in
  let refX := ref_x ref in
  let refY := ref_y ref in
  (* 2. kinematic controller *)
  let dx_global := refX - robot_x (robotRef s) in
  let dy_global := refY - robot_y (robotRef s) in
  let distError := sqrt (dx_global * dx_global + dy_global * dy_global) in
  let kv := 2.0 in
  let kw := 4.0 in
  let targetTheta := atan2 dy_global dx_global in
  let angleDiff := normalizeAngle (targetTheta - robot_theta (robotRef s)) in
  let cmdV0 := kv * distError in
  let cmdW := kw * angleDiff in
  let cmdV := if Rgt_dec cmdV0 1.0 then 1.0 else cmdV0 in
  (* 3. dynamic and adaptive layer *)
  let thetaM' := adaptationLaw config distError (thetaM (adaptiveParamsRef s)) in
  let '(actualV, actualW) := applyDynamics cmdV cmdW thetaM' (realMass config) in
  mkLocals t refX refY distError angleDiff cmdV cmdW (realMass config)
           thetaM' actualV actualW.

(** [arr.push(p); if (arr.length > TRAIL_LENGTH) arr.shift();] *)
Definition pushTrail (trail : list Point) (p : Point) : list Point :=
  let trail' := push trail p in
  if (SIM_CONSTANTS.TRAIL_LENGTH <? length trail')%nat then shift trail'
  else trail'.

(** The condition of the recorder: [timeRef.current % 0.1 < dt]. *)
Definition recording (t : R) : bool :=
  if Rlt_dec (jsRem t 0.1) dt then true else false.

(** One call of [updatePhysics]: the new refs and the sample handed to
    [onUpdate], if any. *)
Definition updatePhysics (config : ControlConfig) (s : SimState)
  : SimState * option Sample :=
  if negb (isPlaying config) then (s, None)
  else
    let L := physicsLocals config s in
    let r := robotRef s in
    (* Euler integration; [theta] is read before it is updated *)
    let x' := robot_x r + l_actualV L * cos (robot_theta r) * dt in
    let y' := robot_y r + l_actualV L * sin (robot_theta r) * dt in
    let theta' := robot_theta r + l_actualW L * dt in
    let robot' := mkRobot x' y' theta' (robot_v r) (robot_w r) in
    let params' := mkParams (l_thetaM L) (thetaI (adaptiveParamsRef s)) in
    if recording (l_t L) then
      (mkState (l_t L) robot' params'
               (pushTrail (trailRef s) (mkPoint x' y'))
               (pushTrail (refTrailRef s) (mkPoint (l_refX L) (l_refY L))),
       Some (mkSample (toFixed1 (l_t L)) (l_distError L)
                      (l_thetaM L) (thetaI params')))
    else
      (mkState (l_t L) robot' params' (trailRef s) (refTrailRef s), None).

(** The state a tick leaves. *)
Definition tick (config : ControlConfig) (s : SimState) : SimState :=
  fst (updatePhysics config s).

(** ** Runs

    What happens to the refs between two renderings: an animation frame
    calls [updatePhysics] under the configuration of the moment, or the
    trajectory changed and the reset effect ran. *)

Inductive Event : Type :=
| Frame (config : ControlConfig)
| TrajectoryChange.

Definition step (s : SimState) (e : Event) : SimState * list Sample :=
  match e with
  | Frame config =>
      let '(s', o) := updatePhysics config s in
      (s', match o with Some d => [d] | None => [] end)
  | TrajectoryChange => (resetSim s, [])
  end.

(** A run: the final refs and the samples emitted, oldest first. *)
Fixpoint run (s : SimState) (es : list Event) : SimState * list Sample :=
  match es with
  | [] => (s, [])
  | e :: es' =>
      let '(s1, out1) := step s e in
      let '(s2, out2) := run s1 es' in
      (s2, out1 ++ out2)
  end.

Definition runState (s : SimState) (es : list Event) : SimState :=
  fst (run s es).

(** ** States, configurations and invariants the properties are stated on *)

(** A robot standing exactly on the point the reference reaches at the next
    tick, with the nominal estimate. *)
Definition onReference (config : ControlConfig) : SimState :=
  let ref := getReferencePoint config (0 + dt) in
  mkState 0 (mkRobot (ref_x ref) (ref_y ref) 0 0 0) (mkParams 1.0 1.0) [] [].

Definition adaptiveCircle : ControlConfig := mkConfig true false CIRCLE true.
Definition adaptiveLoaded : ControlConfig := mkConfig true true CIRCLE true.
Definition staticPaused : ControlConfig := mkConfig false false CIRCLE false.
Definition staticCircle : ControlConfig := mkConfig false false CIRCLE true.

(** A robot one metre to the left of the point the reference reaches at the
    next tick, heading [PI]: the target lies straight behind it. *)
Definition facingAway (config : ControlConfig) : SimState :=
  let ref := getReferencePoint config (0 + dt) in
  mkState 0 (mkRobot (ref_x ref - 1) (ref_y ref) PI 0 0) (mkParams 1.0 1.0) [] [].

(** One tick before the clock reaches 0.1, with both trails empty. *)
Definition emptyTrails : SimState :=
  mkState (0.1 - dt) (mkRobot 0.2 0 0 0 0) (mkParams 1.0 1.0) [] [].

(** The same, with both trails at capacity: an oldest entry at (9, 9), then
    199 entries at the origin. *)
Definition fullTrails : SimState :=
  let trail := mkPoint 9 9 :: repeat (mkPoint 0 0) 199 in
  mkState (0.1 - dt) (mkRobot 0.2 0 0 0 0) (mkParams 1.0 1.0) trail trail.

(** The estimate lies between 0 and the true mass under load. *)
Definition thetaM_bounded (s : SimState) : Prop :=
  0 <= thetaM (adaptiveParamsRef s) <= 3.5.

(** Both trails are within capacity. *)
Definition trails_within (s : SimState) : Prop :=
  (length (trailRef s) <= SIM_CONSTANTS.TRAIL_LENGTH)%nat /\
  (length (refTrailRef s) <= SIM_CONSTANTS.TRAIL_LENGTH)%nat.

(** ** [draw]: world coordinates to canvas pixels

    [cx + p.x * s] and [cy - p.y * s], with [cx], [cy] half the width and
    the height of the canvas (the [width] and [height] attributes of the
    element are [CANVAS_WIDTH] and [CANVAS_HEIGHT]) and [s] the scale. *)

Definition canvas_cx : R := SIM_CONSTANTS.CANVAS_WIDTH / 2.
Definition canvas_cy : R := SIM_CONSTANTS.CANVAS_HEIGHT / 2.

Definition toCanvas (x y : R) : R * R :=
  let s := SIM_CONSTANTS.SCALE in
  (canvas_cx + x * s, canvas_cy - y * s).

(** The centre of the dot [draw] paints for the reference point. *)
Definition drawReferencePoint (config : ControlConfig) (s : SimState) : R * R :=
  let ref := getReferencePoint config (timeRef s) in
  toCanvas (ref_x ref) (ref_y ref).

(** ** The charts: [data.slice(-100)] *)

Definition sliceLast {A : Type} (n : nat) (data : list A) : list A :=
  skipn (length data - n) data.

Definition displayData (data : list Sample) : list Sample := sliceLast 100 data.

(** ** The application shell ([App])

    [handleUpdate] is the [onUpdate] handed to the simulation; the other
    functions are the updates the buttons pass to [setConfig]. *)

Definition handleUpdate (prev : list Sample) (data : Sample) : list Sample :=
  let newHist := prev ++ [data] in
  if (200 <? length newHist)%nat then shift newHist else newHist.

Definition togglePlay (p : ControlConfig) : ControlConfig :=
  mkConfig (isAdaptive p) (hasLoad p) (trajectory p) (negb (isPlaying p)).

Definition setTrajectory (tr : TrajectoryType) (p : ControlConfig) : ControlConfig :=
  mkConfig (isAdaptive p) (hasLoad p) tr (isPlaying p).

Definition toggleLoad (p : ControlConfig) : ControlConfig :=
  mkConfig (isAdaptive p) (negb (hasLoad p)) (trajectory p) (isPlaying p).

Definition toggleAdaptive (p : ControlConfig) : ControlConfig :=
  mkConfig (negb (isAdaptive p)) (hasLoad p) (trajectory p) (isPlaying p).

(** [current === TrajectoryType.CIRCLE ? FIGURE_EIGHT : CIRCLE] in [resetSim]. *)
Definition otherTrajectory (current : TrajectoryType) : TrajectoryType :=
  if TrajectoryType_eqb current CIRCLE then FIGURE_EIGHT else CIRCLE.

(** The state of the page: the two state variables of [App], the callbacks
    [resetSim] has handed to [setTimeout] and that have not fired yet (each
    is its captured [current]; all have the same delay, so they fire in the
    order they were set), and the refs of the simulation component. *)
Record Page : Type := mkPage {
  config : ControlConfig;
  history : list Sample;
  timers : list TrajectoryType;
  sim : SimState
}.

(** What the initial rendering leaves: the [useState] values of [App] and
    the refs after the mount effect. *)
Definition initialPage : Page :=
  mkPage (mkConfig false false CIRCLE true) [] [] initialState.

(** Rendering with a new configuration: the effect whose dependency is
    [config.trajectory] runs exactly when that value differs from the one of
    the previous rendering. *)
Definition trajectoryEffect (old new : ControlConfig) (s : SimState) : SimState :=
  if TrajectoryType_eqb (trajectory old) (trajectory new) then s else resetSim s.

Definition setConfig (f : ControlConfig -> ControlConfig) (pg : Page) : Page :=
  let new := f (config pg) in
  mkPage new (history pg) (timers pg) (trajectoryEffect (config pg) new (sim pg)).

Inductive Action : Type :=
| ClickPlayPause
| ClickReset
| TimerFires
| ClickTrajectory (tr : TrajectoryType)
| ClickLoad
| ClickAdaptive
| AnimationFrame.

(** One thing happening on the page, each rendered before the next. *)
Definition act (pg : Page) (a : Action) : Page :=
  match a with
  | ClickPlayPause => setConfig togglePlay pg
  | ClickReset =>
      (* [resetSim]: clear the history, flip the trajectory, arm the timer *)
      let current := trajectory (config pg) in
      let pg1 := mkPage (config pg) [] (timers pg) (sim pg) in
      let pg2 := setConfig (setTrajectory (otherTrajectory current)) pg1 in
      mkPage (config pg2) (history pg2) (timers pg2 ++ [current]) (sim pg2)
  | TimerFires =>
      match timers pg with
      | [] => pg
      | current :: rest =>
          setConfig (setTrajectory current)
                    (mkPage (config pg) (history pg) rest (sim pg))
      end
  | ClickTrajectory tr => setConfig (setTrajectory tr) pg
  | ClickLoad => setConfig toggleLoad pg
  | ClickAdaptive => setConfig toggleAdaptive pg
  | AnimationFrame =>
      let '(s', o) := updatePhysics (config pg) (sim pg) in
      mkPage (config pg)
             (match o with
              | Some data => handleUpdate (history pg) data
              | None => history pg
              end)
             (timers pg) s'
  end.

Definition acts (pg : Page) (l : list Action) : Page := fold_left act l pg.

(** ** Quantities the further properties are stated on *)

(** The value the adaptation law settles at outside the dead zone: the
    solution of [gamma * (realMass - th) - sigma * th = 0]. *)
Definition thetaM_limit (config : ControlConfig) : R :=
  gamma * realMass config / (gamma + sigma).

(** Frames that ran, in a list of configurations. *)
Definition playing (configs : list ControlConfig) : nat :=
  length (filter isPlaying configs).

(** The fields no tick writes hold the values the reset gives them. *)
Definition untouched (s : SimState) : Prop :=
  thetaI (adaptiveParamsRef s) = 1.0 /\
  robot_v (robotRef s) = 0 /\ robot_w (robotRef s) = 0.

(** The estimate is positive and at most 175/51. *)
Definition thetaM_tight (s : SimState) : Prop :=
  0 < thetaM (adaptiveParamsRef s) <= 175 / 51.

(** The distance error exceeds the dead zone at each of the next [n] ticks
    taken under [config]. *)
Fixpoint errorsAbove (config : ControlConfig) (n : nat) (s : SimState) : Prop :=
  match n with
  | O => True
  | S n' =>
      l_distError (physicsLocals config s) > 0.05 /\
      errorsAbove config n' (tick config s)
  end.

(** The positions a sequence of frames records, oldest first: at each
    recording tick, the robot's new position and the reference point. *)
Fixpoint recorded (s : SimState) (configs : list ControlConfig)
  : list (Point * Point) :=
  match configs with
  | [] => []
  | c :: configs' =>
      let s' := tick c s in
      let ref := getReferencePoint c (timeRef s + dt) in
      (if isPlaying c && recording (timeRef s + dt)
       then [(mkPoint (robot_x (robotRef s')) (robot_y (robotRef s')),
              mkPoint (ref_x ref) (ref_y ref))]
       else [])
      ++ recorded s' configs'
  end.

(** The shape shared by [pushTrail] and [handleUpdate]: append, then drop
    the head when the capacity is exceeded. *)
Definition boundedPush {A : Type} (cap : nat) (l : list A) (x : A) : list A :=
  let l' := l ++ [x] in
  if (cap <? length l')%nat then tl l' else l'.

(** The history and both trails are within capacity. *)
Definition page_within (pg : Page) : Prop :=
  (length (history pg) <= 200)%nat /\ trails_within (sim pg).

(** * Properties *)

(** ** Unfolding lemmas for one tick *)

Lemma dt_eq : dt = 1 / 60.
Proof. reflexivity. Qed.

Lemma dt_pos : 0 < dt.
Proof. unfold dt, SIM_CONSTANTS.FPS. lra. Qed.

Lemma updatePhysics_paused (config : ControlConfig) (s : SimState) :
  isPlaying config = false -> updatePhysics config s = (s, None).
Proof. intros H. unfold updatePhysics. rewrite H. reflexivity. Qed.

Lemma tick_thetaM (config : ControlConfig) (s : SimState) :
  isPlaying config = true ->
  thetaM (adaptiveParamsRef (tick config s)) =
  adaptationLaw config (l_distError (physicsLocals config s))
                (thetaM (adaptiveParamsRef s)).
Proof.
  intros H. unfold tick, updatePhysics. rewrite H. cbn [negb].
  destruct (recording _); reflexivity.
Qed.

Lemma tick_trails (config : ControlConfig) (s : SimState) :
  let s' := tick config s in
  (trailRef s' = trailRef s /\ refTrailRef s' = refTrailRef s) \/
  (isPlaying config = true /\
   recording (timeRef s + dt) = true /\
   trailRef s' =
     pushTrail (trailRef s)
               (mkPoint (robot_x (robotRef s')) (robot_y (robotRef s'))) /\
   refTrailRef s' =
     pushTrail (refTrailRef s)
               (mkPoint (ref_x (getReferencePoint config (timeRef s + dt)))
                        (ref_y (getReferencePoint config (timeRef s + dt))))).
Proof.
  unfold tick, updatePhysics.
  destruct (isPlaying config); cbn [negb]; [| left; split; reflexivity].
  change (l_t (physicsLocals config s)) with (timeRef s + dt).
  destruct (recording (timeRef s + dt)); cbn [fst].
  - right. repeat split; reflexivity.
  - left. split; reflexivity.
Qed.

(** ** The adaptation law (C1, C2, C4) *)

Lemma tick_trails_cases (config : ControlConfig) (s : SimState) :
  let s' := tick config s in
  let ref := getReferencePoint config (timeRef s + dt) in
  if isPlaying config && recording (timeRef s + dt)
  then
    trailRef s' =
      pushTrail (trailRef s)
                (mkPoint (robot_x (robotRef s')) (robot_y (robotRef s'))) /\
    refTrailRef s' =
      pushTrail (refTrailRef s) (mkPoint (ref_x ref) (ref_y ref))
  else trailRef s' = trailRef s /\ refTrailRef s' = refTrailRef s.
Proof.
  cbv zeta. unfold tick, updatePhysics.
  destruct (isPlaying config); cbn [negb andb]; [| split; reflexivity].
  change (l_t (physicsLocals config s)) with (timeRef s + dt).
  destruct (recording (timeRef s + dt)); cbn [fst]; split; reflexivity.
Qed.

(** The recorder's condition holds when the clock reaches a multiple of 0.1. *)
Example recording_on_tenth : recording 0.1 = true.
Proof.
  unfold recording, jsRem, Ztrunc.
  replace (0.1 / 0.1) with (IZR 1) by (field; lra).
  destruct (Rle_dec 0 (IZR 1)) as [_ | H]; [| lra].
  rewrite ZfloorZ.
  destruct (Rlt_dec _ dt) as [_ | H]; [reflexivity |].
  exfalso. apply H. unfold dt, SIM_CONSTANTS.FPS. lra.
Qed.

Lemma onReference_distError (config : ControlConfig) :
  l_distError (physicsLocals config (onReference config)) = 0.
Proof.
  unfold physicsLocals, onReference. cbn.
  set (p := getReferencePoint config (0 + dt)).
  replace ((ref_x p - ref_x p) * (ref_x p - ref_x p) +
           (ref_y p - ref_y p) * (ref_y p - ref_y p)) with 0 by ring.
  apply sqrt_0.
Qed.

(** The distance error is at least the offset along the x axis. *)
Lemma sqrt_sum_squares_ge (a b : R) : 0 <= a -> a <= sqrt (a * a + b * b).
Proof.
  intros Ha. rewrite <- (sqrt_square a Ha) at 1.
  apply sqrt_le_1_alt. nra.
Qed.

Lemma cos_small_lower (x : R) : 0 < x -> x <= 1 / 2 -> 3 / 4 < cos x.
Proof.
  intros H0 H1.
  assert (Hc : 0 < cos x).
  { apply cos_gt_0; pose proof PI2_3_2; lra. }
  pose proof (sin_lt_x x H0) as Hs.
  assert (Hs0 : 0 < sin x).
  { apply sin_gt_0; [lra | pose proof PI2_3_2; lra]. }
  pose proof (sin2_cos2 x) as H2. unfold Rsqr in H2.
  nra.
Qed.

(** At the first tick after a reset on the circle the robot is more than
    0.05 m from the reference: the law is outside its dead zone. *)
Lemma initialState_distError (config : ControlConfig) :
  trajectory config = CIRCLE ->
  l_distError (physicsLocals config initialState) > 0.05.
Proof.
  intros Ht. unfold physicsLocals, initialState, resetSim, getReferencePoint.
  rewrite Ht. cbn.
  assert (Hc : 3 / 4 < cos ((0 + dt) * 0.5)).
  { apply cos_small_lower; unfold dt, SIM_CONSTANTS.FPS; lra. }
  set (c := cos ((0 + dt) * 0.5)) in *.
  set (b := 0.8 * sin ((0 + dt) * 0.5) - 0).
  pose proof (sqrt_sum_squares_ge (0.8 * c - 0.2) b ltac:(lra)).
  lra.
Qed.

(** C1 (as stated, refuted): in the dead zone the estimate does not stay
    where it was.  With adaptation enabled, the robot exactly on the
    reference (distance error 0) and the estimate at 1.0, the tick stores
    an estimate different from 1.0. *)
Lemma deadzone_changes_thetaM :
  isAdaptive adaptiveCircle = true /\
  isPlaying adaptiveCircle = true /\
  l_distError (physicsLocals adaptiveCircle (onReference adaptiveCircle)) <= 0.05 /\
  thetaM (adaptiveParamsRef (tick adaptiveCircle (onReference adaptiveCircle)))
    <> thetaM (adaptiveParamsRef (onReference adaptiveCircle)).
Proof.
  split; [reflexivity |]. split; [reflexivity |]. split.
  - rewrite onReference_distError. lra.
  - rewrite tick_thetaM by reflexivity.
    rewrite onReference_distError.
    unfold adaptationLaw. cbn [isAdaptive adaptiveCircle].
    destruct (Rgt_dec 0 0.05) as [H | _]; [lra |].
    cbn. unfold dt, gamma, sigma, SIM_CONSTANTS.FPS. lra.
Qed.

(** C1 (amended): in a running tick with adaptation enabled and
    [distError <= 0.05], only the leakage term acts: the estimate stored at
    the end of the tick is [thetaM + dt * (- 0.01 * thetaM)]. *)
Theorem deadzone_leakage_only (config : ControlConfig) (s : SimState) :
  isPlaying config = true ->
  isAdaptive config = true ->
  l_distError (physicsLocals config s) <= 0.05 ->
  thetaM (adaptiveParamsRef (tick config s)) =
  thetaM (adaptiveParamsRef s) + dt * (- 0.01 * thetaM (adaptiveParamsRef s)).
Proof.
  intros Hplay Hadapt Hdist.
  rewrite tick_thetaM by assumption.
  unfold adaptationLaw. rewrite Hadapt.
  destruct (Rgt_dec _ 0.05) as [H | _]; [lra |].
  unfold gamma, sigma. lra.
Qed.

Lemma deadzone_leakage_only_witness :
  thetaM (adaptiveParamsRef (tick adaptiveCircle (onReference adaptiveCircle))) =
  thetaM (adaptiveParamsRef (onReference adaptiveCircle))
  + dt * (- 0.01 * thetaM (adaptiveParamsRef (onReference adaptiveCircle))).
Proof.
  apply (deadzone_leakage_only adaptiveCircle (onReference adaptiveCircle)).
  - reflexivity.
  - reflexivity.
  - rewrite onReference_distError. lra.
Defined.

(** C2: in a running tick with adaptation enabled and [distError > 0.05],
    the estimate stored is
    [thetaM + dt * (0.5 * (trueMass - thetaM) - 0.01 * thetaM)], where
    [trueMass] is 1.0 plus 2.5 when the load is present, and [dt = 1/60]. *)
Theorem adaptation_outside_deadzone (config : ControlConfig) (s : SimState) :
  isPlaying config = true ->
  isAdaptive config = true ->
  l_distError (physicsLocals config s) > 0.05 ->
  let trueMass := 1.0 + (if hasLoad config then 2.5 else 0) in
  let thetaM0 := thetaM (adaptiveParamsRef s) in
  l_realMass (physicsLocals config s) = trueMass /\
  thetaM (adaptiveParamsRef (tick config s)) =
  thetaM0 + 1 / 60 * (0.5 * (trueMass - thetaM0) - 0.01 * thetaM0).
Proof.
  intros Hplay Hadapt Hdist trueMass thetaM0.
  assert (Hmass : realMass config = trueMass).
  { unfold realMass, baseMass, loadMass, trueMass.
    destruct (hasLoad config); lra. }
  split; [exact Hmass |].
  rewrite tick_thetaM by assumption.
  unfold adaptationLaw. rewrite Hadapt.
  destruct (Rgt_dec _ 0.05) as [_ | H]; [| contradiction].
  rewrite Hmass. reflexivity.
Qed.

Lemma adaptation_outside_deadzone_witness :
  l_realMass (physicsLocals adaptiveLoaded initialState) = 1.0 + 2.5 /\
  thetaM (adaptiveParamsRef (tick adaptiveLoaded initialState)) =
  1.0 + 1 / 60 * (0.5 * (1.0 + 2.5 - 1.0) - 0.01 * 1.0).
Proof.
  apply (adaptation_outside_deadzone adaptiveLoaded initialState).
  - reflexivity.
  - reflexivity.
  - apply initialState_distError. reflexivity.
Defined.

(** C4 (as stated, refuted): a tick with adaptation disabled does not always
    end with the estimate at 1.0.  After one adaptive tick from the initial
    state the estimate has left 1.0; a paused tick with adaptation disabled
    returns at once and leaves it there. *)
Lemma paused_static_tick_keeps_thetaM :
  let s := tick adaptiveCircle initialState in
  isAdaptive staticPaused = false /\
  thetaM (adaptiveParamsRef (tick staticPaused s)) <> 1.0.
Proof.
  cbv zeta. split; [reflexivity |].
  unfold tick at 1. rewrite updatePhysics_paused by reflexivity. cbn [fst].
  rewrite tick_thetaM by reflexivity.
  unfold adaptationLaw, realMass, baseMass, loadMass, gamma, sigma, dt,
    SIM_CONSTANTS.FPS.
  cbn [isAdaptive hasLoad adaptiveCircle initialState resetSim
       adaptiveParamsRef thetaM].
  destruct (Rgt_dec _ 0.05); lra.
Qed.

(** C4 (amended): in every running tick with adaptation disabled the
    estimate stored is exactly 1.0, whatever it was before and whatever the
    distance error and the load; a tick with [running = false] leaves the
    estimate as it was (the whole state, in fact), whatever the other
    settings. *)
Theorem static_tick_resets_thetaM (config : ControlConfig) (s : SimState) :
  isAdaptive config = false ->
  (isPlaying config = true ->
   thetaM (adaptiveParamsRef (tick config s)) = 1.0) /\
  (isPlaying config = false ->
   thetaM (adaptiveParamsRef (tick config s)) = thetaM (adaptiveParamsRef s)) /\
  (forall paused : ControlConfig,
      isPlaying paused = false ->
      tick paused s = s /\
      thetaM (adaptiveParamsRef (tick paused s)) = thetaM (adaptiveParamsRef s)).
Proof.
  intros Hadapt. split; [| split].
  - intros Hplay.
    rewrite tick_thetaM by assumption.
    unfold adaptationLaw. rewrite Hadapt. reflexivity.
  - intros Hplay. unfold tick.
    rewrite updatePhysics_paused by assumption. reflexivity.
  - intros paused Hplay. unfold tick.
    rewrite updatePhysics_paused by assumption. split; reflexivity.
Qed.

Lemma static_tick_resets_thetaM_witness :
  thetaM (adaptiveParamsRef
            (tick staticCircle (tick adaptiveLoaded initialState))) = 1.0 /\
  thetaM (adaptiveParamsRef
            (tick staticPaused (tick adaptiveLoaded initialState)))
  = thetaM (adaptiveParamsRef (tick adaptiveLoaded initialState)).
Proof.
  split.
  - exact (proj1 (static_tick_resets_thetaM staticCircle
                    (tick adaptiveLoaded initialState) eq_refl) eq_refl).
  - exact (proj1 (proj2 (static_tick_resets_thetaM staticPaused
                           (tick adaptiveLoaded initialState) eq_refl)) eq_refl).
Defined.

(** ** The plant model (C7) *)

(** C7: for every commanded pair, estimate and true mass, the achieved
    velocities are the commands scaled by [thetaM / trueMass] and nothing
    else; a tick feeds the plant model its commands, the estimate it has
    just stored and the true mass, so the velocities it integrates are these
    products. *)
Theorem plant_scales_commands :
  (forall cmdV cmdW thetaM' trueMass : R,
      applyDynamics cmdV cmdW thetaM' trueMass =
      (cmdV * (thetaM' / trueMass), cmdW * (thetaM' / trueMass))) /\
  (forall (config : ControlConfig) (s : SimState),
      let L := physicsLocals config s in
      l_actualV L = l_cmdV L * (l_thetaM L / l_realMass L) /\
      l_actualW L = l_cmdW L * (l_thetaM L / l_realMass L) /\
      l_thetaM L = adaptationLaw config (l_distError L)
                                 (thetaM (adaptiveParamsRef s))).
Proof.
  assert (H : forall cmdV cmdW thetaM' trueMass : R,
             applyDynamics cmdV cmdW thetaM' trueMass =
             (cmdV * (thetaM' / trueMass), cmdW * (thetaM' / trueMass))).
  { intros. unfold applyDynamics. f_equal; lra. }
  split; [exact H |].
  intros config s L. subst L. unfold physicsLocals.
  rewrite H. cbn. repeat split; reflexivity.
Qed.

(** ** The reference generator (C6) *)

(** C6: for every [t >= 0] the CIRCLE reference point is at distance
    exactly 0.8 from the origin. *)
Theorem circle_reference_radius (config : ControlConfig) (t : R) :
  trajectory config = CIRCLE ->
  0 <= t ->
  let p := getReferencePoint config t in
  ref_x p * ref_x p + ref_y p * ref_y p = 0.8 * 0.8 /\
  sqrt (ref_x p * ref_x p + ref_y p * ref_y p) = 0.8.
Proof.
  intros Ht _ p. subst p. unfold getReferencePoint. rewrite Ht. cbn.
  pose proof (sin2_cos2 (t * 0.5)) as H. unfold Rsqr in H.
  assert (E : 0.8 * cos (t * 0.5) * (0.8 * cos (t * 0.5)) +
              0.8 * sin (t * 0.5) * (0.8 * sin (t * 0.5)) = 0.8 * 0.8) by nra.
  split; [exact E |].
  rewrite E. apply sqrt_square. lra.
Qed.

Lemma circle_reference_radius_witness :
  let p := getReferencePoint staticCircle 3 in
  ref_x p * ref_x p + ref_y p * ref_y p = 0.8 * 0.8 /\
  sqrt (ref_x p * ref_x p + ref_y p * ref_y p) = 0.8.
Proof.
  apply (circle_reference_radius staticCircle 3); [reflexivity | lra].
Defined.

(** ** Angle normalisation (C5) *)

(** The first loop: it stops at or below [PI], does nothing to an angle
    already there, and otherwise stops above [- PI], a whole number of turns
    below where it started. *)
Lemma wrapDown_spec (a : R) :
  wrapDown a <= PI /\
  (a <= PI -> wrapDown a = a) /\
  (PI < a -> - PI < wrapDown a) /\
  exists k : Z, wrapDown a = a + IZR k * (2 * PI).
Proof.
  funelim (wrapDown a).
  - (* the body runs once more *)
    destruct H as (Hle & Hid & Hgt & k & Hk).
    repeat split.
    + exact Hle.
    + intros Ha. unfold Rgt in r. lra.
    + intros _.
      destruct (Rle_dec (angleDiff - 2 * PI) PI) as [Hs | Hs].
      * rewrite (Hid Hs). unfold Rgt in r. lra.
      * apply Hgt. lra.
    + exists (k - 1)%Z. rewrite Hk, minus_IZR. ring.
  - (* the condition fails *)
    repeat split.
    + unfold Rgt in n. lra.
    + intros Ha. unfold Rgt in n. lra.
    + exists 0%Z. ring.
Qed.

(** The second loop, symmetrically. *)
Lemma wrapUp_spec (a : R) :
  - PI <= wrapUp a /\
  (- PI <= a -> wrapUp a = a) /\
  (a < - PI -> wrapUp a < PI) /\
  exists k : Z, wrapUp a = a + IZR k * (2 * PI).
Proof.
  funelim (wrapUp a).
  - destruct H as (Hge & Hid & Hlt & k & Hk).
    repeat split.
    + exact Hge.
    + intros Ha. lra.
    + intros _.
      destruct (Rle_dec (- PI) (angleDiff + 2 * PI)) as [Hs | Hs].
      * rewrite (Hid Hs). lra.
      * apply Hlt. lra.
    + exists (k + 1)%Z. rewrite Hk, plus_IZR. ring.
  - repeat split.
    + lra.
    + intros Ha. lra.
    + exists 0%Z. ring.
Qed.

Lemma normalizeAngle_id (a : R) : - PI <= a <= PI -> normalizeAngle a = a.
Proof.
  intros [Hlo Hhi]. unfold normalizeAngle.
  destruct (wrapDown_spec a) as (_ & Hid & _). rewrite (Hid Hhi).
  destruct (wrapUp_spec a) as (_ & Hid' & _). exact (Hid' Hlo).
Qed.

(** C5 (as stated, refuted): the result can be [- PI], which is outside
    the half-open interval: a raw difference of exactly [- PI] passes both
    loop conditions and is returned as it is.  A tick meets it when the
    target direction is 0 and the heading is [PI]. *)
Lemma normalizeAngle_minus_PI :
  normalizeAngle (- PI) = - PI /\
  ~ (- PI < normalizeAngle (- PI) <= PI) /\
  l_angleDiff (physicsLocals staticCircle (facingAway staticCircle)) = - PI.
Proof.
  pose proof PI_RGT_0 as Hpi.
  assert (E : normalizeAngle (- PI) = - PI) by (apply normalizeAngle_id; lra).
  split; [exact E |]. split; [rewrite E; lra |].
  unfold physicsLocals, facingAway. cbn -[getReferencePoint atan2].
  set (p := getReferencePoint staticCircle (0 + dt)).
  replace (ref_x p - (ref_x p - 1)) with 1 by ring.
  replace (ref_y p - ref_y p) with 0 by ring.
  unfold atan2. destruct (Rlt_dec 0 1) as [_ | H]; [| lra].
  replace (0 / 1) with 0 by field. rewrite atan_0.
  replace (0 - PI) with (- PI) by ring. exact E.
Qed.

(** C5 (amended): for every raw heading difference the two loops terminate
    (the normalisation is a total function) and the result lies in the
    closed interval from [- PI] to [PI], a whole number of turns away from
    the raw difference; it is the value [updatePhysics] multiplies by [kw]. *)
Theorem normalizeAngle_range :
  (forall a : R,
      - PI <= normalizeAngle a <= PI /\
      exists k : Z, normalizeAngle a = a + IZR k * (2 * PI)) /\
  (forall (config : ControlConfig) (s : SimState),
      let L := physicsLocals config s in
      - PI <= l_angleDiff L <= PI /\ l_cmdW L = 4.0 * l_angleDiff L).
Proof.
  assert (H : forall a : R,
             - PI <= normalizeAngle a <= PI /\
             exists k : Z, normalizeAngle a = a + IZR k * (2 * PI)).
  { intros a. unfold normalizeAngle.
    pose proof PI_RGT_0 as Hpi.
    destruct (wrapDown_spec a) as (Hle & Hid & Hgt & k1 & Hk1).
    destruct (wrapUp_spec (wrapDown a)) as (Hge' & Hid' & Hlt' & k2 & Hk2).
    split; [split |].
    - exact Hge'.
    - destruct (Rle_dec (- PI) (wrapDown a)) as [Hs | Hs].
      + rewrite (Hid' Hs). exact Hle.
      + apply Rlt_le, Hlt'. lra.
    - exists (k1 + k2)%Z. rewrite Hk2, Hk1, plus_IZR. ring. }
  split; [exact H |].
  intros config s L. subst L. unfold physicsLocals. cbn.
  split; [apply H | reflexivity].
Qed.

(** ** Runs: how invariants travel *)

Lemma runState_nil (s : SimState) : runState s [] = s.
Proof. reflexivity. Qed.

Lemma runState_cons (s : SimState) (e : Event) (es : list Event) :
  runState s (e :: es) = runState (fst (step s e)) es.
Proof.
  unfold runState. cbn [run].
  destruct (step s e) as [s1 out1]. cbn [fst].
  destruct (run s1 es) as [s2 out2]. reflexivity.
Qed.

Lemma step_Frame (s : SimState) (config : ControlConfig) :
  fst (step s (Frame config)) = tick config s.
Proof.
  unfold step, tick. destruct (updatePhysics config s). reflexivity.
Qed.

Section Invariant.
Variable P : SimState -> Prop.
Hypothesis P_reset : forall s, P (resetSim s).
Hypothesis P_tick : forall config s, P s -> P (tick config s).

Lemma run_invariant (es : list Event) : forall s, P s -> P (runState s es).
Proof.
  induction es as [| e es IH]; intros s Hs.
  - exact Hs.
  - rewrite runState_cons. apply IH.
    destruct e as [config |].
    + rewrite step_Frame. apply P_tick, Hs.
    + apply P_reset.
Qed.
End Invariant.

Lemma tick_paused (config : ControlConfig) (s : SimState) :
  isPlaying config = false -> tick config s = s.
Proof.
  intros H. unfold tick. rewrite updatePhysics_paused by assumption.
  reflexivity.
Qed.

(** ** Boundedness of the estimate (C3) *)

Lemma adaptationLaw_bounded (config : ControlConfig) (distError th : R) :
  0 <= th <= 3.5 -> 0 <= adaptationLaw config distError th <= 3.5.
Proof.
  intros Hth.
  unfold adaptationLaw, realMass, baseMass, loadMass, gamma, sigma, dt,
    SIM_CONSTANTS.FPS.
  destruct (isAdaptive config); [| lra].
  destruct (Rgt_dec distError 0.05), (hasLoad config); lra.
Qed.

Lemma adaptationLaw_tight (config : ControlConfig) (distError th : R) :
  0 < th <= 175 / 51 -> 0 < adaptationLaw config distError th <= 175 / 51.
Proof.
  intros Hth.
  unfold adaptationLaw, realMass, baseMass, loadMass, gamma, sigma, dt,
    SIM_CONSTANTS.FPS.
  destruct (isAdaptive config); [| lra].
  destruct (Rgt_dec distError 0.05), (hasLoad config); lra.
Qed.

Lemma tick_thetaM_bounded (config : ControlConfig) (s : SimState) :
  thetaM_bounded s -> thetaM_bounded (tick config s).
Proof.
  intros Hs. unfold thetaM_bounded.
  destruct (isPlaying config) eqn:Hplay.
  - rewrite tick_thetaM by assumption. apply adaptationLaw_bounded, Hs.
  - rewrite tick_paused by assumption. exact Hs.
Qed.

(** C3: in every run that starts with the estimate at 1.0, whatever the
    configuration of each frame and wherever the resets fall, the estimate
    stays between 0 and 3.5, the true mass with the load (the larger of 1.0
    and the true mass). *)
Theorem thetaM_stays_bounded (s : SimState) (es : list Event) :
  thetaM (adaptiveParamsRef s) = 1.0 ->
  0 <= thetaM (adaptiveParamsRef (runState s es)) <= Rmax 1.0 (realMass adaptiveLoaded)
  /\ Rmax 1.0 (realMass adaptiveLoaded) = 3.5.
Proof.
  intros H1.
  assert (Hmax : Rmax 1.0 (realMass adaptiveLoaded) = 3.5).
  { unfold realMass, baseMass, loadMass. cbn [hasLoad adaptiveLoaded].
    rewrite Rmax_right; lra. }
  split; [| exact Hmax]. rewrite Hmax.
  apply (run_invariant thetaM_bounded).
  - intros s0. unfold thetaM_bounded, resetSim. cbn. lra.
  - apply tick_thetaM_bounded.
  - unfold thetaM_bounded. rewrite H1. lra.
Qed.

Lemma thetaM_stays_bounded_witness :
  0 <= thetaM (adaptiveParamsRef
                 (runState initialState
                    [Frame adaptiveLoaded; Frame staticPaused;
                     TrajectoryChange; Frame adaptiveCircle]))
    <= Rmax 1.0 (realMass adaptiveLoaded)
  /\ Rmax 1.0 (realMass adaptiveLoaded) = 3.5.
Proof.
  apply (thetaM_stays_bounded initialState). reflexivity.
Defined.

(** ** The trail buffers (C8, C10) *)

Lemma pushTrail_length_le (trail : list Point) (p : Point) :
  (length trail <= SIM_CONSTANTS.TRAIL_LENGTH)%nat ->
  (length (pushTrail trail p) <= SIM_CONSTANTS.TRAIL_LENGTH)%nat.
Proof.
  intros H. unfold pushTrail, push, shift.
  destruct (Nat.ltb_spec SIM_CONSTANTS.TRAIL_LENGTH (length (trail ++ [p])))
    as [Hgt | Hle]; [| exact Hle].
  rewrite length_app in Hgt. cbn [length] in Hgt.
  destruct trail as [| q trail']; cbn [length app tl] in *;
    [apply Nat.le_0_l |].
  rewrite length_app. cbn [length]. lia.
Qed.

(** First in, first out: below capacity the point is appended; at capacity
    it is appended and the head, the oldest entry, goes. *)
Lemma pushTrail_fifo (trail : list Point) (p : Point) :
  (length trail <= SIM_CONSTANTS.TRAIL_LENGTH)%nat ->
  pushTrail trail p =
  if (length trail <? SIM_CONSTANTS.TRAIL_LENGTH)%nat then trail ++ [p]
  else tl trail ++ [p].
Proof.
  intros H. unfold pushTrail, push, shift.
  rewrite length_app. cbn [length].
  destruct (Nat.ltb_spec SIM_CONSTANTS.TRAIL_LENGTH (length trail + 1)),
           (Nat.ltb_spec (length trail) SIM_CONSTANTS.TRAIL_LENGTH);
    try lia; try reflexivity.
  destruct trail as [| q trail']; [| reflexivity].
  cbn [length] in *.
  assert (0 < SIM_CONSTANTS.TRAIL_LENGTH)%nat
    by (unfold SIM_CONSTANTS.TRAIL_LENGTH; apply Nat.lt_0_succ).
  lia.
Qed.

Lemma pushTrail_length_eq (a b : list Point) (p q : Point) :
  length a = length b -> length (pushTrail a p) = length (pushTrail b q).
Proof.
  intros H. unfold pushTrail, push, shift.
  rewrite !length_app, H. cbn [length].
  destruct (_ <? _)%nat.
  - destruct a, b; cbn [length] in H; try discriminate; try reflexivity.
    cbn [app tl]. rewrite !length_app. cbn [length]. lia.
  - rewrite !length_app, H. reflexivity.
Qed.

Lemma tick_trails_within (config : ControlConfig) (s : SimState) :
  trails_within s -> trails_within (tick config s).
Proof.
  intros [H1 H2]. unfold trails_within.
  destruct (tick_trails config s) as [[E1 E2] | (_ & _ & E1 & E2)];
    rewrite E1, E2.
  - split; assumption.
  - split; apply pushTrail_length_le; assumption.
Qed.

(** C8: in every run that starts with both trails within capacity (empty,
    in particular), each trail holds at most 200 entries after every tick.
    What a further tick does to the trails is fixed: when it is taken while
    playing and the recorder's condition holds, it appends the robot's new
    position to the actual trail and the reference point to the reference
    trail, and a trail that already held 200 entries loses its first, the
    oldest, so the rest moves up and the new point comes last; otherwise
    both trails stay as they are. *)
Theorem trails_never_exceed_capacity (s : SimState) (es : list Event) :
  (length (trailRef s) <= 200)%nat ->
  (length (refTrailRef s) <= 200)%nat ->
  let s' := runState s es in
  SIM_CONSTANTS.TRAIL_LENGTH = 200%nat /\
  (length (trailRef s') <= 200)%nat /\
  (length (refTrailRef s') <= 200)%nat /\
  forall config : ControlConfig,
    let s'' := tick config s' in
    let p := mkPoint (robot_x (robotRef s'')) (robot_y (robotRef s'')) in
    let ref := getReferencePoint config (timeRef s' + dt) in
    let q := mkPoint (ref_x ref) (ref_y ref) in
    if isPlaying config && recording (timeRef s' + dt)
    then
      trailRef s'' =
        (if (length (trailRef s') <? 200)%nat then trailRef s' ++ [p]
         else tl (trailRef s') ++ [p]) /\
      refTrailRef s'' =
        (if (length (refTrailRef s') <? 200)%nat then refTrailRef s' ++ [q]
         else tl (refTrailRef s') ++ [q])
    else
      trailRef s'' = trailRef s' /\ refTrailRef s'' = refTrailRef s'.
Proof.
  intros Ht Hr s'.
  assert (Hw : trails_within s').
  { apply (run_invariant trails_within).
    - intros s0. split; cbn; apply Nat.le_0_l.
    - apply tick_trails_within.
    - split; assumption. }
  destruct Hw as [H1 H2].
  change SIM_CONSTANTS.TRAIL_LENGTH with 200%nat in H1, H2.
  split; [reflexivity |]. split; [exact H1 |]. split; [exact H2 |].
  intros config s'' p ref q. subst s'' p ref q.
  pose proof (tick_trails_cases config s') as Hc. cbv zeta in Hc.
  destruct (isPlaying config && recording (timeRef s' + dt)).
  - destruct Hc as [E1 E2]. split.
    + rewrite E1. apply pushTrail_fifo. exact H1.
    + rewrite E2. apply pushTrail_fifo. exact H2.
  - exact Hc.
Qed.

Lemma trails_never_exceed_capacity_witness :
  (* from empty trails, a tick that records *)
  (let s'' := tick staticCircle emptyTrails in
   trailRef s'' = [mkPoint (robot_x (robotRef s'')) (robot_y (robotRef s''))]) /\
  (* from full trails, the same tick drops the oldest entry *)
  (let s'' := tick staticCircle fullTrails in
   trailRef s'' =
     repeat (mkPoint 0 0) 199
       ++ [mkPoint (robot_x (robotRef s'')) (robot_y (robotRef s''))] /\
   (length (trailRef s'') <= 200)%nat).
Proof.
  assert (E : recording (0.1 - dt + dt) = true).
  { replace (0.1 - dt + dt) with 0.1 by ring. apply recording_on_tenth. }
  split.
  - pose proof (trails_never_exceed_capacity emptyTrails []
                  (Nat.le_0_l 200) (Nat.le_0_l 200)) as H.
    destruct H as (_ & _ & _ & H). specialize (H staticCircle).
    cbv zeta in H.
    change (runState emptyTrails []) with emptyTrails in H.
    change (timeRef emptyTrails) with (0.1 - dt) in H.
    rewrite E in H. exact (proj1 H).
  - assert (L : (length (trailRef fullTrails) <= 200)%nat)
      by (apply Nat.leb_le; reflexivity).
    assert (Lr : (length (refTrailRef fullTrails) <= 200)%nat)
      by (apply Nat.leb_le; reflexivity).
    pose proof (trails_never_exceed_capacity fullTrails [] L Lr) as H.
    destruct H as (_ & _ & _ & H). specialize (H staticCircle).
    pose proof (trails_never_exceed_capacity fullTrails [Frame staticCircle] L Lr)
      as (_ & Hlen & _).
    cbv zeta in H.
    change (runState fullTrails []) with fullTrails in H.
    change (timeRef fullTrails) with (0.1 - dt) in H.
    rewrite E in H. split; [exact (proj1 H) |].
    rewrite runState_cons, step_Frame in Hlen. exact Hlen.
Defined.

(** C10: in every run that starts with the two trails of equal length (both
    are empty when the component mounts and after every reset), the
    reference trail and the actual trail have equal length after every
    tick. *)
Theorem trails_in_lockstep (s : SimState) (es : list Event) :
  length (trailRef s) = length (refTrailRef s) ->
  length (trailRef (runState s es)) = length (refTrailRef (runState s es)).
Proof.
  apply (run_invariant
           (fun s0 => length (trailRef s0) = length (refTrailRef s0))).
  - intros s0. reflexivity.
  - intros config s0 H0.
    destruct (tick_trails config s0) as [[E1 E2] | (_ & _ & E1 & E2)];
      rewrite E1, E2.
    + exact H0.
    + apply pushTrail_length_eq, H0.
Qed.

Lemma trails_in_lockstep_witness :
  length (trailRef (runState initialState
                      [Frame adaptiveLoaded; TrajectoryChange; Frame staticCircle]))
  = length (refTrailRef (runState initialState
                      [Frame adaptiveLoaded; TrajectoryChange; Frame staticCircle])).
Proof.
  apply (trails_in_lockstep initialState). reflexivity.
Defined.

(** ** Pausing (C9) *)

(** C9: with [running = false] a tick returns the state it was given, all
    of it (pose, time, both estimates, both trails), and hands no sample to
    [onUpdate]; so does any number of such ticks in a row. *)
Theorem paused_ticks_change_nothing (s : SimState) (configs : list ControlConfig) :
  Forall (fun config => isPlaying config = false) configs ->
  run s (map Frame configs) = (s, []).
Proof.
  intros H. induction H as [| config configs Hc _ IH].
  - reflexivity.
  - cbn [map run step]. rewrite (updatePhysics_paused config s Hc).
    rewrite IH. reflexivity.
Qed.

Lemma paused_ticks_change_nothing_witness :
  run (tick adaptiveLoaded initialState)
      (map Frame [staticPaused; mkConfig true true FIGURE_EIGHT false;
                  staticPaused])
  = (tick adaptiveLoaded initialState, []).
Proof.
  apply (paused_ticks_change_nothing (tick adaptiveLoaded initialState)).
  repeat constructor.
Defined.

(** ** The recorder on concrete inputs *)

(** A full trail: one more point goes in at the end, the oldest one leaves. *)
Example pushTrail_at_capacity :
  let old := mkPoint 0 0 in
  let new := mkPoint 1 1 in
  pushTrail (old :: repeat new 199) new = repeat new 200 /\
  length (pushTrail (repeat old 199) new) = 200%nat.
Proof. split; reflexivity. Qed.

(** The recorder's condition fails at the first tick after a reset. *)
Example not_recording_first_tick : recording (0 + dt) = false.
Proof.
  unfold recording, jsRem, Ztrunc, dt, SIM_CONSTANTS.FPS.
  destruct (Rle_dec 0 _) as [_ | H]; [| exfalso; apply H; lra].
  rewrite (Zfloor_eq 0) by lra.
  destruct (Rlt_dec _ _) as [H | _]; [lra | reflexivity].
Qed.

(** A running tick that lands on a multiple of 0.1 appends one point to each
    trail and emits one sample carrying the estimates. *)
Example tick_on_tenth_records :
  let s := mkState (0.1 - dt) (mkRobot 0.2 0 0 0 0) (mkParams 1.0 1.0) [] [] in
  length (trailRef (tick staticCircle s)) = 1%nat /\
  length (refTrailRef (tick staticCircle s)) = 1%nat /\
  exists d : Sample,
    snd (updatePhysics staticCircle s) = Some d /\
    theta1 d = 1.0 /\ theta2 d = 1.0.
Proof.
  cbv zeta.
  assert (E : recording (0.1 - dt + dt) = true).
  { replace (0.1 - dt + dt) with 0.1 by ring. apply recording_on_tenth. }
  unfold tick, updatePhysics. cbn [isPlaying staticCircle negb].
  change (l_t (physicsLocals staticCircle ?s)) with (timeRef s + dt).
  cbn [timeRef]. rewrite E. cbn [fst snd trailRef refTrailRef].
  repeat split. eexists. split; [reflexivity |]. split; reflexivity.
Qed.

(** * Further properties of the code *)

(** ** The reference generator: shape, extent and velocity *)

Lemma figure_eight_den_pos (t : R) : 1 <= 1 + sin (t * 0.5) * sin (t * 0.5).
Proof. pose proof (Rle_0_sqr (sin (t * 0.5))) as H. unfold Rsqr in H. lra. Qed.

(** X1: on the FIGURE_EIGHT trajectory the denominator is never below 1 (no
    division by zero) and the reference point lies on the lemniscate
    [(x^2 + y^2)^2 = x^2 - y^2]. *)
Theorem figure_eight_on_lemniscate (config : ControlConfig) (t : R) :
  trajectory config = FIGURE_EIGHT ->
  let p := getReferencePoint config t in
  let sint := sin (t * 0.5) in
  1 <= 1 + sint * sint /\
  ref_x p = cos (t * 0.5) / (1 + sint * sint) /\
  ref_y p = cos (t * 0.5) * sint / (1 + sint * sint) /\
  (ref_x p * ref_x p + ref_y p * ref_y p) * (ref_x p * ref_x p + ref_y p * ref_y p)
  = ref_x p * ref_x p - ref_y p * ref_y p.
Proof.
  intros Ht p sint. subst p sint. unfold getReferencePoint. rewrite Ht. cbn.
  pose proof (figure_eight_den_pos t) as Hden.
  pose proof (sin2_cos2 (t * 0.5)) as H. unfold Rsqr in H.
  set (s := sin (t * 0.5)) in *. set (c := cos (t * 0.5)) in *.
  split; [exact Hden |].
  replace 1.0 with 1 by lra.
  assert (Hd : 1 + s * s <> 0) by lra.
  split; [field; exact Hd |]. split; [field; exact Hd |].
  assert (Hc : c * c = 1 - s * s) by lra.
  replace (1 * c / (1 + s * s) * (1 * c / (1 + s * s)) +
           1 * c * s / (1 + s * s) * (1 * c * s / (1 + s * s)))
    with ((c * c) / (1 + s * s)) by (field; exact Hd).
  replace (1 * c / (1 + s * s) * (1 * c / (1 + s * s)) -
           1 * c * s / (1 + s * s) * (1 * c * s / (1 + s * s)))
    with ((c * c) * (1 - s * s) / ((1 + s * s) * (1 + s * s)))
    by (field; exact Hd).
  rewrite <- Hc. field. exact Hd.
Qed.

Lemma figure_eight_on_lemniscate_witness :
  let p := getReferencePoint (mkConfig false false FIGURE_EIGHT true) 3 in
  (ref_x p * ref_x p + ref_y p * ref_y p) * (ref_x p * ref_x p + ref_y p * ref_y p)
  = ref_x p * ref_x p - ref_y p * ref_y p.
Proof.
  cbv zeta.
  apply (figure_eight_on_lemniscate (mkConfig false false FIGURE_EIGHT true) 3).
  reflexivity.
Defined.

Lemma div_by_ge_1_bounds (a b den : R) :
  1 <= den -> - b <= a <= b -> - b <= a / den <= b.
Proof.
  intros Hden [Hlo Hhi].
  assert (Hi : 0 < / den <= 1).
  { split; [apply Rinv_0_lt_compat; lra |].
    rewrite <- Rinv_1. apply Rinv_le_contravar; lra. }
  unfold Rdiv. nra.
Qed.

(** How far the reference point can be from the origin on each axis. *)
Lemma reference_extent (config : ControlConfig) (t : R) :
  let p := getReferencePoint config t in
  - 1 <= ref_x p <= 1 /\ - 0.8 <= ref_y p <= 0.8.
Proof.
  cbv zeta. unfold getReferencePoint.
  pose proof (COS_bound (t * 0.5)) as Hc.
  pose proof (SIN_bound (t * 0.5)) as Hs.
  pose proof (sin2_cos2 (t * 0.5)) as H. unfold Rsqr in H.
  destruct (TrajectoryType_eqb _ _); cbn.
  - lra.
  - pose proof (figure_eight_den_pos t) as Hden.
    set (s := sin (t * 0.5)) in *. set (c := cos (t * 0.5)) in *.
    pose proof (div_by_ge_1_bounds (1.0 * c) 1 _ Hden ltac:(lra)).
    pose proof (Rle_0_sqr (c - s)) as Hm. pose proof (Rle_0_sqr (c + s)) as Hp.
    unfold Rsqr in Hm, Hp.
    pose proof (div_by_ge_1_bounds (1.0 * c * s) (1 / 2) _ Hden ltac:(nra)).
    lra.
Qed.

(** X2: whatever the trajectory and the time, the dot [draw] paints for the
    reference point has its centre between 200 and 400 pixels across and
    between 120 and 280 pixels down, so the dot (radius 5) is wholly inside
    the 600 by 400 canvas. *)
Theorem reference_dot_inside_canvas (config : ControlConfig) (s : SimState) :
  let c := drawReferencePoint config s in
  200 <= fst c <= 400 /\ 120 <= snd c <= 280 /\
  0 <= fst c - 5 /\ fst c + 5 <= SIM_CONSTANTS.CANVAS_WIDTH /\
  0 <= snd c - 5 /\ snd c + 5 <= SIM_CONSTANTS.CANVAS_HEIGHT.
Proof.
  cbv zeta. unfold drawReferencePoint, toCanvas, canvas_cx, canvas_cy,
    SIM_CONSTANTS.CANVAS_WIDTH, SIM_CONSTANTS.CANVAS_HEIGHT,
    SIM_CONSTANTS.SCALE.
  destruct (reference_extent config (timeRef s)) as [Hx Hy].
  cbn [fst snd]. lra.
Qed.

Lemma derivable_pt_lim_value (f : R -> R) (t l l' : R) :
  derivable_pt_lim f t l -> l = l' -> derivable_pt_lim f t l'.
Proof. intros H E. rewrite <- E. exact H. Qed.

(** Derivatives of the two phase functions [cos (t * speed)], [sin (t * speed)]. *)
Lemma derivable_cos_phase (t : R) :
  derivable_pt_lim (fun u => cos (u * 0.5)) t (- sin (t * 0.5) * 0.5).
Proof.
  apply (derivable_pt_lim_ext (comp cos (mult_real_fct 0.5 id))).
  - intros z. unfold comp, mult_real_fct, id. f_equal. ring.
  - replace (t * 0.5) with (mult_real_fct 0.5 id t)
      by (unfold mult_real_fct, id; ring).
    replace (- sin (mult_real_fct 0.5 id t) * 0.5)
      with (- sin (mult_real_fct 0.5 id t) * (0.5 * 1)) by ring.
    apply derivable_pt_lim_comp.
    + apply derivable_pt_lim_scal, derivable_pt_lim_id.
    + apply derivable_pt_lim_cos.
Qed.

Lemma derivable_sin_phase (t : R) :
  derivable_pt_lim (fun u => sin (u * 0.5)) t (cos (t * 0.5) * 0.5).
Proof.
  apply (derivable_pt_lim_ext (comp sin (mult_real_fct 0.5 id))).
  - intros z. unfold comp, mult_real_fct, id. f_equal. ring.
  - replace (t * 0.5) with (mult_real_fct 0.5 id t)
      by (unfold mult_real_fct, id; ring).
    replace (cos (mult_real_fct 0.5 id t) * 0.5)
      with (cos (mult_real_fct 0.5 id t) * (0.5 * 1)) by ring.
    apply derivable_pt_lim_comp.
    + apply derivable_pt_lim_scal, derivable_pt_lim_id.
    + apply derivable_pt_lim_sin.
Qed.

(** X3: on the CIRCLE trajectory the [dx], [dy] the generator returns are
    the time derivatives of [x] and [y]; the reference moves at the constant
    speed 0.4 m/s, at right angles to its position vector. *)
Theorem circle_velocity_is_derivative (config : ControlConfig) (t : R) :
  trajectory config = CIRCLE ->
  let p := getReferencePoint config t in
  derivable_pt_lim (fun u => ref_x (getReferencePoint config u)) t (ref_dx p) /\
  derivable_pt_lim (fun u => ref_y (getReferencePoint config u)) t (ref_dy p) /\
  ref_dx p * ref_dx p + ref_dy p * ref_dy p = 0.4 * 0.4 /\
  ref_x p * ref_dx p + ref_y p * ref_dy p = 0.
Proof.
  intros Ht p. subst p. unfold getReferencePoint. rewrite Ht. cbn.
  pose proof (sin2_cos2 (t * 0.5)) as H. unfold Rsqr in H.
  split; [| split; [| split]].
  - apply (derivable_pt_lim_ext (mult_real_fct 0.8 (fun u => cos (u * 0.5)))).
    + intros z. reflexivity.
    + apply (derivable_pt_lim_value _ _ (0.8 * (- sin (t * 0.5) * 0.5)));
        [apply derivable_pt_lim_scal, derivable_cos_phase | lra].
  - apply (derivable_pt_lim_ext (mult_real_fct 0.8 (fun u => sin (u * 0.5)))).
    + intros z. reflexivity.
    + apply (derivable_pt_lim_value _ _ (0.8 * (cos (t * 0.5) * 0.5)));
        [apply derivable_pt_lim_scal, derivable_sin_phase | lra].
  - nra.
  - nra.
Qed.

Lemma circle_velocity_is_derivative_witness :
  let p := getReferencePoint staticCircle 3 in
  ref_dx p * ref_dx p + ref_dy p * ref_dy p = 0.4 * 0.4.
Proof.
  cbv zeta.
  exact (proj1 (proj2 (proj2
    (circle_velocity_is_derivative staticCircle 3 eq_refl)))).
Defined.

(** The true derivatives of the figure-eight coordinates. *)
Lemma figure_eight_derivatives (config : ControlConfig) (t : R) :
  trajectory config = FIGURE_EIGHT ->
  let s := sin (t * 0.5) in
  let den := 1 + s * s in
  derivable_pt_lim (fun u => ref_x (getReferencePoint config u)) t
                   (- s * (3 - s * s) / (den * den) * 0.5) /\
  derivable_pt_lim (fun u => ref_y (getReferencePoint config u)) t
                   ((1 - 3 * s * s) / (den * den) * 0.5).
Proof.
  intros Ht s den.
  pose (C := fun u : R => cos (u * 0.5)).
  pose (S := fun u : R => sin (u * 0.5)).
  pose (D := (fct_cte 1 + S * S)%F).
  assert (HC := derivable_cos_phase t). fold C in HC.
  assert (HS := derivable_sin_phase t). fold S in HS.
  assert (HD : derivable_pt_lim D t
                 (0 + (cos (t * 0.5) * 0.5 * S t + S t * (cos (t * 0.5) * 0.5)))).
  { apply derivable_pt_lim_plus;
      [apply derivable_pt_lim_const | apply derivable_pt_lim_mult; exact HS]. }
  assert (Hden : D t <> 0).
  { unfold D, plus_fct, mult_fct, fct_cte, S.
    pose proof (figure_eight_den_pos t). lra. }
  pose proof (sin2_cos2 (t * 0.5)) as H2. unfold Rsqr in H2.
  assert (Hnz : den <> 0) by (pose proof (figure_eight_den_pos t); subst den s; lra).
  split.
  - apply (derivable_pt_lim_ext (mult_real_fct 1.0 C / D)%F).
    { intros z. unfold getReferencePoint. rewrite Ht. reflexivity. }
    eapply derivable_pt_lim_value.
    { apply derivable_pt_lim_div;
        [apply derivable_pt_lim_scal; exact HC | exact HD | exact Hden]. }
    unfold D, plus_fct, mult_fct, fct_cte, mult_real_fct, S, C, Rsqr.
    fold s. fold den.
    set (c := cos (t * 0.5)) in *.
    assert (Hc : c * c = 1 - s * s) by (subst s; lra).
    replace 1.0 with 1 by lra. replace 0.5 with (/ 2) by lra.
    replace (1 * (- s * / 2) * den - (0 + (c * / 2 * s + s * (c * / 2))) * (1 * c))
      with (- s * (/ 2 * den + c * c)) by field.
    rewrite Hc. subst den. field. exact Hnz.
  - apply (derivable_pt_lim_ext ((mult_real_fct 1.0 C * S) / D)%F).
    { intros z. unfold getReferencePoint. rewrite Ht. reflexivity. }
    eapply derivable_pt_lim_value.
    { apply derivable_pt_lim_div;
        [apply derivable_pt_lim_mult;
           [apply derivable_pt_lim_scal; exact HC | exact HS]
        | exact HD | exact Hden]. }
    unfold D, plus_fct, mult_fct, fct_cte, mult_real_fct, S, C, Rsqr.
    fold s. fold den.
    set (c := cos (t * 0.5)) in *.
    assert (Hc : c * c = 1 - s * s) by (subst s; lra).
    replace 1.0 with 1 by lra. replace 0.5 with (/ 2) by lra.
    replace ((1 * (- s * / 2) * s + 1 * c * (c * / 2)) * den
             - (0 + (c * / 2 * s + s * (c * / 2))) * (1 * c * s))
      with (/ 2 * (c * c - s * s) * den - s * s * (c * c)) by field.
    rewrite Hc. subst den. field. exact Hnz.
Qed.

(** X4: on the FIGURE_EIGHT trajectory the [dy] the generator returns is the
    time derivative of [y], but its [dx] is not the derivative of [x] (the
    source calls it approximate): the derivative is [dx + sint^3 / den^2],
    so the two agree exactly at the times where [sin (t * speed) = 0]. *)
Theorem figure_eight_velocity (config : ControlConfig) (t : R) :
  trajectory config = FIGURE_EIGHT ->
  let p := getReferencePoint config t in
  let sint := sin (t * 0.5) in
  let den := 1 + sint * sint in
  derivable_pt_lim (fun u => ref_y (getReferencePoint config u)) t (ref_dy p) /\
  derivable_pt_lim (fun u => ref_x (getReferencePoint config u)) t
                   (ref_dx p + sint * sint * sint / (den * den)) /\
  (derivable_pt_lim (fun u => ref_x (getReferencePoint config u)) t (ref_dx p)
   <-> sint = 0).
Proof.
  intros Ht p sint den.
  destruct (figure_eight_derivatives config t Ht) as [Hx Hy].
  fold sint in Hx, Hy. fold den in Hx, Hy.
  assert (Hnz : den <> 0).
  { pose proof (figure_eight_den_pos t). subst den sint. lra. }
  assert (Edx : ref_dx p = - sint * (3 + sint * sint) / (den * den) * 0.5).
  { subst p. unfold getReferencePoint. rewrite Ht. cbn. fold sint. fold den.
    replace 1.0 with 1 by lra. field. exact Hnz. }
  assert (Edy : ref_dy p = (1 - 3 * sint * sint) / (den * den) * 0.5).
  { subst p. unfold getReferencePoint. rewrite Ht. cbn. fold sint. fold den.
    replace 1.0 with 1 by lra. field. exact Hnz. }
  assert (Egap : - sint * (3 - sint * sint) / (den * den) * 0.5 =
                 ref_dx p + sint * sint * sint / (den * den)).
  { rewrite Edx. replace 0.5 with (/ 2) by lra. field. exact Hnz. }
  split; [rewrite Edy; exact Hy |].
  split; [rewrite <- Egap; exact Hx |].
  split.
  - intros Hcode.
    pose proof (uniqueness_limite _ _ _ _ Hx Hcode) as E.
    rewrite Egap in E.
    assert (Hq : sint * sint * sint / (den * den) = 0) by lra.
    assert (Hcube : sint * sint * sint = 0).
    { apply (Rmult_eq_reg_r (/ (den * den))).
      - rewrite Rmult_0_l. exact Hq.
      - apply Rinv_neq_0_compat, Rmult_integral_contrapositive_currified;
          exact Hnz. }
    destruct (Rmult_integral _ _ Hcube) as [Hsq | H0]; [| exact H0].
    destruct (Rmult_integral _ _ Hsq); assumption.
  - intros H0. eapply derivable_pt_lim_value; [exact Hx |].
    rewrite Egap, H0. unfold Rdiv. ring.
Qed.

Lemma figure_eight_velocity_witness :
  let config := mkConfig false false FIGURE_EIGHT true in
  derivable_pt_lim (fun u => ref_y (getReferencePoint config u)) 3
                   (ref_dy (getReferencePoint config 3)).
Proof.
  cbv zeta.
  exact (proj1 (figure_eight_velocity
                  (mkConfig false false FIGURE_EIGHT true) 3 eq_refl)).
Defined.

(** ** One running tick, field by field *)

Lemma updatePhysics_running (config : ControlConfig) (s : SimState) :
  isPlaying config = true ->
  let L := physicsLocals config s in
  let r := robotRef s in
  let s' := tick config s in
  timeRef s' = timeRef s + dt /\
  robot_x (robotRef s') = robot_x r + l_actualV L * cos (robot_theta r) * dt /\
  robot_y (robotRef s') = robot_y r + l_actualV L * sin (robot_theta r) * dt /\
  robot_theta (robotRef s') = robot_theta r + l_actualW L * dt /\
  robot_v (robotRef s') = robot_v r /\
  robot_w (robotRef s') = robot_w r /\
  thetaM (adaptiveParamsRef s') = l_thetaM L /\
  thetaI (adaptiveParamsRef s') = thetaI (adaptiveParamsRef s) /\
  snd (updatePhysics config s) =
    if recording (timeRef s + dt)
    then Some (mkSample (toFixed1 (timeRef s + dt)) (l_distError L)
                        (l_thetaM L) (thetaI (adaptiveParamsRef s)))
    else None.
Proof.
  intros Hplay L r s'. subst L r s'.
  unfold tick, updatePhysics. rewrite Hplay. cbn [negb].
  change (l_t (physicsLocals config s)) with (timeRef s + dt).
  destruct (recording (timeRef s + dt)); cbn [fst snd];
    repeat split; reflexivity.
Qed.

Lemma realMass_cases (config : ControlConfig) :
  realMass config = 1 \/ realMass config = 3.5.
Proof.
  unfold realMass, baseMass, loadMass.
  destruct (hasLoad config); [right | left]; lra.
Qed.

Lemma distError_nonneg (config : ControlConfig) (s : SimState) :
  0 <= l_distError (physicsLocals config s).
Proof. unfold physicsLocals. cbn. apply sqrt_pos. Qed.

Lemma normalizeAngle_bounds (a : R) : - PI <= normalizeAngle a <= PI.
Proof.
  unfold normalizeAngle. pose proof PI_RGT_0 as Hpi.
  destruct (wrapDown_spec a) as (Hle & _ & Hgt & _).
  destruct (wrapUp_spec (wrapDown a)) as (Hge & Hid & Hlt & _).
  split; [exact Hge |].
  destruct (Rle_dec (- PI) (wrapDown a)) as [Hs | Hs].
  - rewrite (Hid Hs). exact Hle.
  - apply Rlt_le, Hlt. lra.
Qed.

(** ** The control law and the integrator *)

Lemma cmdV_eq_min (config : ControlConfig) (s : SimState) :
  l_cmdV (physicsLocals config s)
  = Rmin (2 * l_distError (physicsLocals config s)) 1.
Proof.
  unfold physicsLocals. cbn.
  set (d := sqrt _). unfold Rmin.
  destruct (Rgt_dec (2.0 * d) 1.0), (Rle_dec (2 * d) 1); lra.
Qed.

(** X6: in every tick the distance error is the length of the vector from
    the robot to the reference point (so not negative), the commanded linear
    velocity is twice the error cut off at 1.0 (so between 0 and 1), the
    heading error is the normalised difference between the direction of
    that vector and the heading (so between [- PI] and [PI]), and the
    commanded angular velocity is four times the heading error (so between
    [- 4 PI] and [4 PI]). *)
Theorem commands_saturate (config : ControlConfig) (s : SimState) :
  let L := physicsLocals config s in
  let ex := l_refX L - robot_x (robotRef s) in
  let ey := l_refY L - robot_y (robotRef s) in
  l_distError L = sqrt (ex * ex + ey * ey) /\
  0 <= l_distError L /\
  l_cmdV L = Rmin (2 * l_distError L) 1 /\
  0 <= l_cmdV L <= 1 /\
  l_angleDiff L = normalizeAngle (atan2 ey ex - robot_theta (robotRef s)) /\
  - PI <= l_angleDiff L <= PI /\
  l_cmdW L = 4 * l_angleDiff L /\
  - (4 * PI) <= l_cmdW L <= 4 * PI.
Proof.
  intros L ex ey.
  pose proof (distError_nonneg config s) as Hd. fold L in Hd.
  pose proof (cmdV_eq_min config s) as Hv. fold L in Hv.
  assert (Ha : l_angleDiff L
               = normalizeAngle (atan2 ey ex - robot_theta (robotRef s)))
    by reflexivity.
  assert (Hn : - PI <= l_angleDiff L <= PI)
    by (rewrite Ha; apply normalizeAngle_bounds).
  assert (Hw : l_cmdW L = 4 * l_angleDiff L).
  { subst L. unfold physicsLocals. cbn -[normalizeAngle atan2]. lra. }
  split; [reflexivity |]. split; [exact Hd |]. split; [exact Hv |].
  split; [rewrite Hv; unfold Rmin; destruct (Rle_dec _ _); lra |].
  split; [exact Ha |]. split; [exact Hn |]. split; [exact Hw |].
  rewrite Hw. lra.
Qed.

Lemma cmdV_range (config : ControlConfig) (s : SimState) :
  0 <= l_cmdV (physicsLocals config s) <= 1.
Proof.
  pose proof (distError_nonneg config s) as Hd.
  unfold physicsLocals in *. cbn in *.
  set (d := sqrt _) in *. destruct (Rgt_dec (2.0 * d) 1.0); lra.
Qed.

Lemma locals_plant (config : ControlConfig) (s : SimState) :
  let L := physicsLocals config s in
  l_actualV L = l_cmdV L * (l_thetaM L / realMass config) /\
  l_actualW L = l_cmdW L * (l_thetaM L / realMass config) /\
  l_thetaM L =
    adaptationLaw config (l_distError L) (thetaM (adaptiveParamsRef s)).
Proof.
  cbv zeta. unfold physicsLocals, applyDynamics. cbn.
  repeat split; try reflexivity; lra.
Qed.

Lemma actualV_range (config : ControlConfig) (s : SimState) :
  thetaM_bounded s -> 0 <= l_actualV (physicsLocals config s) <= 3.5.
Proof.
  intros Hs.
  destruct (locals_plant config s) as (EV & _ & EM).
  pose proof (cmdV_range config s) as Hv.
  pose proof (adaptationLaw_bounded config
                (l_distError (physicsLocals config s)) _ Hs) as Hm.
  rewrite <- EM in Hm. rewrite EV.
  set (v := l_cmdV _) in *. set (m := l_thetaM _) in *.
  destruct (realMass_cases config) as [E | E]; rewrite E.
  - replace (m / 1) with m by field. nra.
  - assert (0 <= m / 3.5 <= 1) by (unfold Rdiv; lra). nra.
Qed.

(** X7: a running tick moves the robot by [actualV * dt] in the direction
    of its current heading, [(cos theta, sin theta)], and turns it by
    [actualW * dt] (the heading is not wrapped); when the estimate is
    within its bounds (as in every run from a reset) [actualV] is not
    negative, so the robot advances along its heading, never backwards, and
    covers at most [3.5 * dt] metres in a tick. *)
Theorem euler_step_length (config : ControlConfig) (s : SimState) :
  isPlaying config = true ->
  thetaM_bounded s ->
  let L := physicsLocals config s in
  let r := robotRef s in
  let r' := robotRef (tick config s) in
  let dx := robot_x r' - robot_x r in
  let dy := robot_y r' - robot_y r in
  0 <= l_actualV L <= 3.5 /\
  sqrt (dx * dx + dy * dy) = l_actualV L * dt /\
  sqrt (dx * dx + dy * dy) <= 3.5 * dt /\
  dx * sin (robot_theta r) = dy * cos (robot_theta r) /\
  robot_theta r' = robot_theta r + l_actualW L * dt /\
  dx = l_actualV L * cos (robot_theta r) * dt /\
  dy = l_actualV L * sin (robot_theta r) * dt /\
  dx * cos (robot_theta r) + dy * sin (robot_theta r) = l_actualV L * dt /\
  0 <= dx * cos (robot_theta r) + dy * sin (robot_theta r).
Proof.
  intros Hplay Hs L r r' dx dy.
  destruct (updatePhysics_running config s Hplay)
    as (_ & Ex & Ey & Eth & _).
  fold L in Ex, Ey, Eth. fold r in Ex, Ey, Eth. fold r' in Ex, Ey, Eth.
  pose proof (actualV_range config s Hs) as Hv. fold L in Hv.
  pose proof dt_pos as Hdt.
  pose proof (sin2_cos2 (robot_theta r)) as H2. unfold Rsqr in H2.
  set (v := l_actualV L) in *.
  set (c := cos (robot_theta r)) in *. set (sn := sin (robot_theta r)) in *.
  assert (Edx : dx = v * c * dt) by (subst dx; lra).
  assert (Edy : dy = v * sn * dt) by (subst dy; lra).
  assert (Esq : dx * dx + dy * dy = (v * dt) * (v * dt)).
  { rewrite Edx, Edy.
    replace (v * c * dt * (v * c * dt) + v * sn * dt * (v * sn * dt))
      with ((v * dt) * (v * dt) * (sn * sn + c * c)) by ring.
    rewrite H2. ring. }
  assert (Elen : sqrt (dx * dx + dy * dy) = v * dt).
  { rewrite Esq. apply sqrt_square. nra. }
  assert (Edot : dx * c + dy * sn = v * dt).
  { rewrite Edx, Edy.
    replace (v * c * dt * c + v * sn * dt * sn)
      with (v * dt * (sn * sn + c * c)) by ring.
    rewrite H2. ring. }
  split; [exact Hv |]. split; [exact Elen |]. split; [rewrite Elen; nra |].
  split; [rewrite Edx, Edy; ring |]. split; [exact Eth |].
  split; [exact Edx |]. split; [exact Edy |]. split; [exact Edot |].
  rewrite Edot. nra.
Qed.

(** At the first tick after a reset, with load and adaptation, the robot
    (heading 0, reference ahead of it) advances: its [x] grows. *)
Lemma euler_step_length_witness :
  let L := physicsLocals adaptiveLoaded initialState in
  let r := robotRef initialState in
  let r' := robotRef (tick adaptiveLoaded initialState) in
  robot_x r' - robot_x r = l_actualV L * cos (robot_theta r) * dt /\
  robot_y r' - robot_y r = l_actualV L * sin (robot_theta r) * dt /\
  0 < robot_x r' - robot_x r.
Proof.
  cbv zeta.
  assert (Hb : thetaM_bounded initialState)
    by (unfold thetaM_bounded; cbn; lra).
  pose proof (euler_step_length adaptiveLoaded initialState eq_refl Hb) as H.
  cbv zeta in H.
  destruct H as (_ & _ & _ & _ & _ & Edx & Edy & _).
  split; [exact Edx |]. split; [exact Edy |].
  rewrite Edx.
  destruct (locals_plant adaptiveLoaded initialState) as (EV & _ & EM).
  pose proof (initialState_distError adaptiveLoaded eq_refl) as Hd.
  pose proof (cmdV_eq_min adaptiveLoaded initialState) as Hc.
  pose proof (adaptationLaw_tight adaptiveLoaded
                (l_distError (physicsLocals adaptiveLoaded initialState)) 1.0
                ltac:(lra)) as Hm.
  change (adaptationLaw adaptiveLoaded
            (l_distError (physicsLocals adaptiveLoaded initialState)) 1.0)
    with (l_thetaM (physicsLocals adaptiveLoaded initialState)) in Hm.
  assert (Hmass : realMass adaptiveLoaded = 3.5)
    by (unfold realMass, baseMass, loadMass; cbn; lra).
  assert (Hcv : 0 < l_cmdV (physicsLocals adaptiveLoaded initialState)).
  { rewrite Hc. unfold Rmin. destruct (Rle_dec _ _); lra. }
  change (robot_theta (robotRef initialState)) with 0.
  rewrite cos_0, EV, Hmass.
  set (cv := l_cmdV _) in *. set (m := l_thetaM _) in *.
  pose proof dt_pos as Hdt.
  assert (0 < m / 3.5) by (unfold Rdiv; lra).
  assert (0 < cv * (m / 3.5)) by (apply Rmult_lt_0_compat; assumption).
  nra.
Defined.

(** X8: a robot standing exactly on the point the reference reaches in this
    tick gets a zero linear command: the tick leaves its position where it
    was, and only turns it, toward heading 0 (the direction [atan2] gives
    for a zero error vector). *)
Theorem on_reference_stays_put (config : ControlConfig) (s : SimState) :
  isPlaying config = true ->
  robot_x (robotRef s) = l_refX (physicsLocals config s) ->
  robot_y (robotRef s) = l_refY (physicsLocals config s) ->
  let L := physicsLocals config s in
  let r := robotRef s in
  let r' := robotRef (tick config s) in
  l_distError L = 0 /\ l_cmdV L = 0 /\
  robot_x r' = robot_x r /\ robot_y r' = robot_y r /\
  l_angleDiff L = normalizeAngle (0 - robot_theta r).
Proof.
  intros Hplay Hx Hy L r r'.
  destruct (updatePhysics_running config s Hplay) as (_ & Ex & Ey & _).
  fold L in Ex, Ey. fold r in Ex, Ey. fold r' in Ex, Ey.
  destruct (locals_plant config s) as (EV & _). fold L in EV.
  assert (Hd : l_distError L = 0 /\ l_cmdV L = 0 /\
               l_angleDiff L = normalizeAngle (0 - robot_theta r)).
  { subst L r. unfold physicsLocals in *. cbn -[atan2 normalizeAngle] in *.
    rewrite <- Hx, <- Hy.
    replace (robot_x (robotRef s) - robot_x (robotRef s)) with 0 by ring.
    replace (robot_y (robotRef s) - robot_y (robotRef s)) with 0 by ring.
    replace (0 * 0 + 0 * 0) with 0 by ring. rewrite sqrt_0.
    split; [reflexivity |]. split.
    - destruct (Rgt_dec (2.0 * 0) 1.0); lra.
    - f_equal. f_equal. unfold atan2.
      destruct (Rlt_dec 0 0); [lra |]. reflexivity. }
  destruct Hd as (Hd0 & Hv0 & Ha).
  split; [exact Hd0 |]. split; [exact Hv0 |].
  rewrite Hv0 in EV.
  split; [rewrite Ex, EV; ring |]. split; [rewrite Ey, EV; ring | exact Ha].
Qed.

Lemma on_reference_stays_put_witness :
  robot_x (robotRef (tick adaptiveCircle (onReference adaptiveCircle)))
  = robot_x (robotRef (onReference adaptiveCircle)).
Proof.
  exact (proj1 (proj2 (proj2
    (on_reference_stays_put adaptiveCircle (onReference adaptiveCircle)
       eq_refl eq_refl eq_refl)))).
Defined.

(** ** The clock *)

Lemma runState_frames_cons (s : SimState) (c : ControlConfig)
      (configs : list ControlConfig) :
  runState s (map Frame (c :: configs)) =
  runState (tick c s) (map Frame configs).
Proof. cbn [map]. rewrite runState_cons, step_Frame. reflexivity. Qed.

(** X9: over any sequence of frames (no reset) the simulated time advances
    by [dt] for each frame taken while playing and by nothing for the
    others: it is the start time plus the number of played frames times
    [1/60], and never decreases. *)
Theorem clock_counts_played_frames (s : SimState) (configs : list ControlConfig) :
  let s' := runState s (map Frame configs) in
  timeRef s' = timeRef s + INR (playing configs) * (1 / 60) /\
  timeRef s <= timeRef s'.
Proof.
  cbv zeta.
  assert (H : forall s0, timeRef (runState s0 (map Frame configs))
                         = timeRef s0 + INR (playing configs) * (1 / 60)).
  { induction configs as [| c configs IH]; intros s0.
    - cbn. lra.
    - rewrite runState_frames_cons, IH. unfold playing. cbn [filter].
      destruct (isPlaying c) eqn:Hc.
      + destruct (updatePhysics_running c s0 Hc) as (Et & _).
        rewrite Et. cbn [length]. rewrite S_INR. rewrite dt_eq. lra.
      + rewrite (tick_paused c s0 Hc). lra. }
  split; [apply H |].
  rewrite H. pose proof (pos_INR (playing configs)). nra.
Qed.

(** ** Fields no tick writes *)

Lemma tick_untouched (config : ControlConfig) (s : SimState) :
  untouched s -> untouched (tick config s).
Proof.
  intros Hs. destruct (isPlaying config) eqn:Hplay.
  - destruct (updatePhysics_running config s Hplay)
      as (_ & _ & _ & _ & Ev & Ew & _ & Ei & _).
    unfold untouched. rewrite Ev, Ew, Ei. exact Hs.
  - rewrite tick_paused by assumption. exact Hs.
Qed.

(** X10: the inertia estimate [thetaI] and the [v], [w] fields of the robot
    are written by the reset only: in every run from a state where they are
    1.0, 0 and 0 (the values of the refs at mount and after every reset)
    they still are, whatever the frames and resets in between. *)
Theorem thetaI_and_velocities_frozen (s : SimState) (es : list Event) :
  thetaI (adaptiveParamsRef s) = 1.0 ->
  robot_v (robotRef s) = 0 ->
  robot_w (robotRef s) = 0 ->
  let s' := runState s es in
  thetaI (adaptiveParamsRef s') = 1.0 /\
  robot_v (robotRef s') = 0 /\ robot_w (robotRef s') = 0.
Proof.
  intros Hi Hv Hw. cbv zeta.
  apply (run_invariant untouched).
  - intros s0. unfold untouched, resetSim. cbn. repeat split; reflexivity.
  - apply tick_untouched.
  - repeat split; assumption.
Qed.

Lemma thetaI_and_velocities_frozen_witness :
  thetaI (adaptiveParamsRef
            (runState initialState
               [Frame adaptiveLoaded; TrajectoryChange; Frame staticCircle]))
  = 1.0.
Proof.
  exact (proj1 (thetaI_and_velocities_frozen initialState
                  [Frame adaptiveLoaded; TrajectoryChange; Frame staticCircle]
                  eq_refl eq_refl eq_refl)).
Defined.

(** ** What the samples carry *)

Lemma run_cons_snd (s : SimState) (e : Event) (es : list Event) :
  snd (run s (e :: es)) = snd (step s e) ++ snd (run (fst (step s e)) es).
Proof.
  cbn [run]. destruct (step s e) as [s1 out1]. cbn [fst snd].
  destruct (run s1 es) as [s2 out2]. reflexivity.
Qed.

Section Telemetry.
Variable P : SimState -> Prop.
Variable Q : Sample -> Prop.
Hypothesis P_reset : forall s, P (resetSim s).
Hypothesis P_tick : forall config s, P s -> P (tick config s).
Hypothesis Q_emitted :
  forall config s d, P s -> snd (updatePhysics config s) = Some d -> Q d.

Lemma run_samples (es : list Event) :
  forall s, P s -> Forall Q (snd (run s es)).
Proof.
  induction es as [| e es IH]; intros s Hs.
  - constructor.
  - rewrite run_cons_snd. apply Forall_app. split.
    + destruct e as [config |]; cbn [step snd]; [| constructor].
      destruct (updatePhysics config s) as [s1 [d |]] eqn:E; cbn [snd].
      * constructor; [| constructor].
        apply (Q_emitted config s d Hs). rewrite E. reflexivity.
      * constructor.
    + apply IH. destruct e as [config |].
      * rewrite step_Frame. apply P_tick, Hs.
      * apply P_reset.
Qed.
End Telemetry.

(** X11: every sample handed to [onUpdate] in a run that starts with both
    estimates at 1.0 carries a distance error that is not negative, a mass
    estimate between 0 and 3.5 and an inertia estimate equal to 1.0. *)
Theorem samples_are_sound (s : SimState) (es : list Event) :
  thetaM (adaptiveParamsRef s) = 1.0 ->
  thetaI (adaptiveParamsRef s) = 1.0 ->
  Forall (fun d => 0 <= sample_error d /\ 0 <= theta1 d <= 3.5 /\ theta2 d = 1.0)
         (snd (run s es)).
Proof.
  intros HM HI.
  apply (run_samples
           (fun s0 => thetaM_bounded s0 /\ thetaI (adaptiveParamsRef s0) = 1.0)).
  - intros s0. unfold thetaM_bounded, resetSim. cbn. split; [lra | reflexivity].
  - intros config s0 [Hb Hi]. split; [apply tick_thetaM_bounded, Hb |].
    destruct (isPlaying config) eqn:Hplay.
    + destruct (updatePhysics_running config s0 Hplay)
        as (_ & _ & _ & _ & _ & _ & _ & Ei & _).
      rewrite Ei. exact Hi.
    + rewrite tick_paused by assumption. exact Hi.
  - intros config s0 d [Hb Hi] Hd.
    destruct (isPlaying config) eqn:Hplay.
    + destruct (updatePhysics_running config s0 Hplay)
        as (_ & _ & _ & _ & _ & _ & _ & _ & Eo).
      rewrite Eo in Hd. destruct (recording _); [| discriminate].
      injection Hd as <-. cbn [sample_error theta1 theta2].
      split; [apply distError_nonneg |]. split; [| exact Hi].
      apply adaptationLaw_bounded, Hb.
    + rewrite updatePhysics_paused in Hd by assumption. discriminate.
  - split; [unfold thetaM_bounded; rewrite HM; lra | exact HI].
Qed.

Lemma samples_are_sound_witness :
  Forall (fun d => 0 <= sample_error d /\ 0 <= theta1 d <= 3.5 /\ theta2 d = 1.0)
         (snd (run initialState
                   [Frame adaptiveLoaded; TrajectoryChange; Frame staticCircle])).
Proof.
  apply (samples_are_sound initialState); reflexivity.
Defined.

(** ** The estimate: a sharper bound, and where it goes *)

(** X12: in every run that starts with the estimate at 1.0 the mass estimate
    stays positive and never exceeds 175/51 (about 3.43), strictly below the
    loaded mass 3.5; so in any tick taken with the load on, the plant
    delivers a positive fraction of the commanded velocities, at most
    50/51 of them. *)
Theorem thetaM_below_true_mass (s : SimState) (es : list Event) :
  thetaM (adaptiveParamsRef s) = 1.0 ->
  let s' := runState s es in
  0 < thetaM (adaptiveParamsRef s') <= 175 / 51 /\
  175 / 51 < 3.5 /\
  forall config : ControlConfig,
    hasLoad config = true ->
    let L := physicsLocals config s' in
    0 < l_thetaM L / l_realMass L <= 50 / 51.
Proof.
  intros H1 s'.
  assert (Ht : thetaM_tight s').
  { apply (run_invariant thetaM_tight).
    - intros s0. unfold thetaM_tight, resetSim. cbn. lra.
    - intros config s0 Hs0. unfold thetaM_tight.
      destruct (isPlaying config) eqn:Hplay.
      + rewrite tick_thetaM by assumption. apply adaptationLaw_tight, Hs0.
      + rewrite tick_paused by assumption. exact Hs0.
    - unfold thetaM_tight. rewrite H1. lra. }
  split; [exact Ht |]. split; [lra |].
  intros config Hload L.
  destruct (locals_plant config s') as (_ & _ & EM). fold L in EM.
  pose proof (adaptationLaw_tight config (l_distError L) _ Ht) as Hm.
  rewrite <- EM in Hm.
  assert (ER : l_realMass L = 3.5).
  { subst L. unfold physicsLocals, realMass, baseMass, loadMass. cbn.
    rewrite Hload. lra. }
  rewrite ER. unfold Rdiv. lra.
Qed.

Lemma thetaM_below_true_mass_witness :
  0 < thetaM (adaptiveParamsRef
                (runState initialState [Frame adaptiveLoaded; Frame adaptiveLoaded]))
    <= 175 / 51.
Proof.
  exact (proj1 (thetaM_below_true_mass initialState
                  [Frame adaptiveLoaded; Frame adaptiveLoaded] eq_refl)).
Defined.

Lemma thetaM_limit_eq (config : ControlConfig) :
  thetaM_limit config = 50 / 51 * realMass config.
Proof.
  unfold thetaM_limit, gamma, sigma.
  replace (0.5 + 0.01) with (51 / 100) by lra.
  replace 0.5 with (1 / 2) by lra. field.
Qed.

Lemma adaptationLaw_contracts (config : ControlConfig) (distError th : R) :
  isAdaptive config = true ->
  distError > 0.05 ->
  adaptationLaw config distError th - thetaM_limit config =
  (1 - (gamma + sigma) * dt) * (th - thetaM_limit config).
Proof.
  intros Ha Hd. rewrite thetaM_limit_eq.
  unfold adaptationLaw. rewrite Ha.
  destruct (Rgt_dec distError 0.05) as [_ | H]; [| contradiction].
  unfold gamma, sigma, dt, SIM_CONSTANTS.FPS.
  set (M := realMass config). lra.
Qed.

(** X13: while the robot is playing with adaptation enabled and the distance
    error stays above 0.05, the gap between the estimate and the value
    50/51 of the true mass shrinks by the same factor [1 - 0.51 / 60] at
    every tick: after [n] ticks it is that factor to the power [n] times
    the gap at the start.  The estimate settles below the true mass. *)
Theorem estimate_converges_geometrically
        (config : ControlConfig) (n : nat) (s : SimState) :
  isPlaying config = true ->
  isAdaptive config = true ->
  errorsAbove config n s ->
  thetaM (adaptiveParamsRef (runState s (map Frame (repeat config n))))
    - 50 / 51 * realMass config
  = (1 - 0.51 / 60) ^ n * (thetaM (adaptiveParamsRef s) - 50 / 51 * realMass config).
Proof.
  intros Hplay Ha. rewrite <- thetaM_limit_eq.
  replace (1 - 0.51 / 60) with (1 - (gamma + sigma) * dt)
    by (unfold gamma, sigma, dt, SIM_CONSTANTS.FPS; lra).
  revert s. induction n as [| n IH]; intros s Hn.
  - cbn. ring.
  - destruct Hn as [Hd Hn].
    cbn [repeat]. rewrite runState_frames_cons, (IH _ Hn).
    rewrite tick_thetaM by assumption.
    rewrite (adaptationLaw_contracts config _ _ Ha Hd).
    cbn [pow]. ring.
Qed.

Lemma estimate_converges_geometrically_witness :
  thetaM (adaptiveParamsRef
            (runState initialState (map Frame (repeat adaptiveLoaded 1))))
    - 50 / 51 * realMass adaptiveLoaded
  = (1 - 0.51 / 60) ^ 1
    * (thetaM (adaptiveParamsRef initialState) - 50 / 51 * realMass adaptiveLoaded).
Proof.
  apply (estimate_converges_geometrically adaptiveLoaded 1 initialState).
  - reflexivity.
  - reflexivity.
  - split; [apply initialState_distError; reflexivity | exact I].
Defined.

(** ** Bounded buffers: the trails, the history, the charts *)

Section BoundedBuffer.
Variable A : Type.
Variable cap : nat.

Lemma boundedPush_last (l : list A) (x : A) :
  (length l <= cap)%nat ->
  boundedPush cap l x = skipn (length (l ++ [x]) - cap) (l ++ [x]).
Proof.
  intros H. unfold boundedPush. rewrite length_app. cbn [length].
  destruct (Nat.ltb_spec cap (length l + 1)) as [Hgt | Hle].
  - replace (length l + 1 - cap)%nat with 1%nat by lia. reflexivity.
  - replace (length l + 1 - cap)%nat with 0%nat by lia. reflexivity.
Qed.

Lemma boundedPush_length (l : list A) (x : A) :
  (length l <= cap)%nat -> (length (boundedPush cap l x) <= cap)%nat.
Proof.
  intros H. rewrite boundedPush_last by exact H.
  rewrite length_skipn, length_app. cbn [length]. lia.
Qed.

Lemma fold_boundedPush_last (xs : list A) :
  forall l, (length l <= cap)%nat ->
  fold_left (boundedPush cap) xs l = skipn (length (l ++ xs) - cap) (l ++ xs).
Proof.
  induction xs as [| x xs IH]; intros l H.
  - cbn [fold_left]. rewrite app_nil_r.
    replace (length l - cap)%nat with 0%nat by lia. reflexivity.
  - cbn [fold_left]. rewrite (IH _ (boundedPush_length l x H)).
    rewrite boundedPush_last by exact H.
    set (k := (length (l ++ [x]) - cap)%nat).
    assert (Hk : (k <= length (l ++ [x]))%nat) by (subst k; lia).
    assert (E : skipn k (l ++ [x]) ++ xs = skipn k (l ++ x :: xs)).
    { replace (l ++ x :: xs) with ((l ++ [x]) ++ xs)
        by (rewrite <- app_assoc; reflexivity).
      rewrite (skipn_app k (l ++ [x]) xs).
      replace (k - length (l ++ [x]))%nat with 0%nat by lia. reflexivity. }
    rewrite E.
    rewrite skipn_skipn. f_equal.
    rewrite length_skipn, !length_app. subst k.
    rewrite length_app. cbn [length]. lia.
Qed.
End BoundedBuffer.

Lemma tick_trails_exact (c : ControlConfig) (s : SimState) :
  let s' := tick c s in
  let ref := getReferencePoint c (timeRef s + dt) in
  let now := if isPlaying c && recording (timeRef s + dt)
             then [(mkPoint (robot_x (robotRef s')) (robot_y (robotRef s')),
                    mkPoint (ref_x ref) (ref_y ref))]
             else [] in
  trailRef s' = fold_left pushTrail (map fst now) (trailRef s) /\
  refTrailRef s' = fold_left pushTrail (map snd now) (refTrailRef s) /\
  length (snd (step s (Frame c))) = length now.
Proof.
  cbv zeta. unfold tick, step, updatePhysics.
  destruct (isPlaying c); cbn [negb andb];
    [| cbn; repeat split; reflexivity].
  change (l_t (physicsLocals c s)) with (timeRef s + dt).
  destruct (recording (timeRef s + dt)); cbn; repeat split; reflexivity.
Qed.

Lemma pushTrail_is_boundedPush :
  pushTrail = boundedPush SIM_CONSTANTS.TRAIL_LENGTH.
Proof. reflexivity. Qed.

(** X14: over any sequence of frames from a state whose trails are within
    capacity, each trail is the window of the most recent 200 entries of
    what it held followed by what the recording ticks appended, in order;
    and the frames hand [onUpdate] exactly one sample per recorded point. *)
Theorem trails_are_latest_window (s : SimState) (configs : list ControlConfig) :
  (length (trailRef s) <= 200)%nat ->
  (length (refTrailRef s) <= 200)%nat ->
  let s' := runState s (map Frame configs) in
  let pts := recorded s configs in
  let all := trailRef s ++ map fst pts in
  let allRef := refTrailRef s ++ map snd pts in
  trailRef s' = skipn (length all - 200) all /\
  refTrailRef s' = skipn (length allRef - 200) allRef /\
  length (snd (run s (map Frame configs))) = length pts.
Proof.
  intros H1 H2. cbv zeta.
  assert (F : forall s0,
             trailRef (runState s0 (map Frame configs))
             = fold_left pushTrail (map fst (recorded s0 configs)) (trailRef s0) /\
             refTrailRef (runState s0 (map Frame configs))
             = fold_left pushTrail (map snd (recorded s0 configs)) (refTrailRef s0) /\
             length (snd (run s0 (map Frame configs)))
             = length (recorded s0 configs)).
  { induction configs as [| c configs IH]; intros s0.
    - cbn. repeat split; reflexivity.
    - destruct (IH (tick c s0)) as (I1 & I2 & I3).
      destruct (tick_trails_exact c s0) as (T1 & T2 & T3).
      rewrite runState_frames_cons. cbn [recorded map].
      rewrite !map_app, !fold_left_app, length_app, <- T1, <- T2, <- T3.
      split; [exact I1 |]. split; [exact I2 |].
      rewrite run_cons_snd, length_app, step_Frame, I3. reflexivity. }
  destruct (F s) as (F1 & F2 & F3).
  rewrite F1, F2, F3, pushTrail_is_boundedPush.
  rewrite !fold_boundedPush_last by assumption.
  repeat split; reflexivity.
Qed.

Lemma trails_are_latest_window_witness :
  length (snd (run initialState (map Frame [adaptiveLoaded; staticPaused])))
  = length (recorded initialState [adaptiveLoaded; staticPaused]).
Proof.
  refine (proj2 (proj2 (trails_are_latest_window initialState
                          [adaptiveLoaded; staticPaused] _ _)));
    cbn; apply Nat.le_0_l.
Defined.

Lemma handleUpdate_is_boundedPush : handleUpdate = boundedPush 200.
Proof. reflexivity. Qed.

(** X15: fed any samples one after the other, [handleUpdate] keeps the
    history at 200 entries or fewer: it is the window of the most recent
    200 of what it held followed by the samples, in the order received. *)
Theorem history_is_latest_window (h ds : list Sample) :
  (length h <= 200)%nat ->
  let h' := fold_left handleUpdate ds h in
  h' = skipn (length (h ++ ds) - 200) (h ++ ds) /\
  (length h' <= 200)%nat /\
  (length h' = Nat.min 200 (length h + length ds))%nat.
Proof.
  intros H h'. subst h'. rewrite handleUpdate_is_boundedPush.
  rewrite fold_boundedPush_last by exact H.
  rewrite length_skipn, length_app.
  repeat split; lia.
Qed.

Lemma history_is_latest_window_witness :
  let d := mkSample 0 0 1 1 in
  (length (fold_left handleUpdate (repeat d 250) []) <= 200)%nat.
Proof.
  cbv zeta.
  refine (proj1 (proj2 (history_is_latest_window []
                          (repeat (mkSample 0 0 1 1) 250) _))).
  apply Nat.le_0_l.
Defined.

(** X16: the charts plot [data.slice(-100)] of the history: at most 100
    points, and, for a history built by [handleUpdate] from nothing, exactly
    the most recent 100 samples emitted (all of them when fewer). *)
Theorem charts_show_latest_hundred (ds : list Sample) :
  let shown := displayData (fold_left handleUpdate ds []) in
  shown = skipn (length ds - 100) ds /\
  (length shown = Nat.min 100 (length ds))%nat.
Proof.
  cbv zeta. unfold displayData, sliceLast.
  rewrite handleUpdate_is_boundedPush.
  rewrite fold_boundedPush_last by apply Nat.le_0_l.
  cbn [app]. rewrite length_skipn, skipn_skipn.
  assert (E : (length ds - (length ds - 200) - 100 + (length ds - 200)
               = length ds - 100)%nat) by lia.
  rewrite E, length_skipn. split; [reflexivity | lia].
Qed.

(** ** The page: buttons, timer and frames together *)

Lemma resetSim_initial (s : SimState) : resetSim s = initialState.
Proof. reflexivity. Qed.

Lemma otherTrajectory_differs (tr : TrajectoryType) :
  TrajectoryType_eqb tr (otherTrajectory tr) = false /\
  TrajectoryType_eqb (otherTrajectory tr) tr = false.
Proof. destruct tr; split; reflexivity. Qed.

Lemma TrajectoryType_eqb_refl (tr : TrajectoryType) :
  TrajectoryType_eqb tr tr = true.
Proof. destruct tr; reflexivity. Qed.

Lemma TrajectoryType_eqb_neq (a b : TrajectoryType) :
  a <> b -> TrajectoryType_eqb a b = false.
Proof. destruct a, b; intros H; try reflexivity; contradiction H; reflexivity. Qed.

Lemma frames_keep_controls (n : nat) :
  forall pg,
    config (acts pg (repeat AnimationFrame n)) = config pg /\
    timers (acts pg (repeat AnimationFrame n)) = timers pg.
Proof.
  induction n as [| n IH]; intros pg.
  - split; reflexivity.
  - cbn [repeat acts fold_left]. fold (acts (act pg AnimationFrame) (repeat AnimationFrame n)).
    destruct (IH (act pg AnimationFrame)) as [E1 E2]. rewrite E1, E2.
    unfold act. destruct (updatePhysics (config pg) (sim pg)). split; reflexivity.
Qed.

Lemma acts_app (pg : Page) (l1 l2 : list Action) :
  acts pg (l1 ++ l2) = acts (acts pg l1) l2.
Proof. apply fold_left_app. Qed.

(** X17: the Reset button, with no earlier reset still pending: the click
    empties the history and resets the simulation at once; when its timer
    fires, after any number of animation frames, the configuration is again
    the one before the click and the simulation is again in its initial
    state. *)
Theorem reset_button_restores (pg : Page) (n : nat) :
  timers pg = [] ->
  let clicked := act pg ClickReset in
  let pg' := acts pg (ClickReset :: repeat AnimationFrame n ++ [TimerFires]) in
  history clicked = [] /\ sim clicked = initialState /\
  trajectory (config clicked) <> trajectory (config pg) /\
  config pg' = config pg /\ sim pg' = initialState /\ timers pg' = [].
Proof.
  intros Ht clicked pg'.
  destruct pg as [cfg h ts s]. cbn [timers] in Ht. subst ts.
  destruct cfg as [a l tr p].
  destruct (otherTrajectory_differs tr) as [D1 D2].
  assert (Ec : clicked =
               mkPage (mkConfig a l (otherTrajectory tr) p) [] [tr] initialState).
  { subst clicked. unfold act, setConfig, trajectoryEffect, setTrajectory.
    cbn. rewrite D1. reflexivity. }
  split; [rewrite Ec; reflexivity |]. split; [rewrite Ec; reflexivity |].
  split; [rewrite Ec; cbn; destruct tr; discriminate |].
  subst pg'. change (acts ?q (ClickReset :: ?r)) with (acts (act q ClickReset) r).
  fold clicked. rewrite acts_app.
  destruct (frames_keep_controls n clicked) as [Fc Ft].
  set (mid := acts clicked (repeat AnimationFrame n)) in *.
  rewrite Ec in Fc, Ft. cbn [config timers] in Fc, Ft.
  cbn [acts fold_left]. unfold act. rewrite Ft.
  unfold setConfig, trajectoryEffect, setTrajectory. cbn [config history timers sim].
  rewrite Fc. cbn [trajectory isAdaptive hasLoad isPlaying]. rewrite D2.
  repeat split; reflexivity.
Qed.

Lemma reset_button_restores_witness :
  config (acts initialPage
               (ClickReset :: repeat AnimationFrame 3 ++ [TimerFires]))
  = config initialPage.
Proof.
  exact (proj1 (proj2 (proj2 (proj2
    (reset_button_restores initialPage 3 eq_refl))))).
Defined.

(** X18: only a change of trajectory resets the simulation.  Play/pause,
    the load toggle and the adaptive toggle leave every ref of the
    simulation as it was; clicking the trajectory already selected changes
    nothing at all; clicking the other one puts the simulation in its
    initial state and keeps the history the charts plot. *)
Theorem only_trajectory_change_resets (pg : Page) :
  sim (act pg ClickPlayPause) = sim pg /\
  sim (act pg ClickLoad) = sim pg /\
  sim (act pg ClickAdaptive) = sim pg /\
  act pg (ClickTrajectory (trajectory (config pg))) = pg /\
  forall tr : TrajectoryType,
    tr <> trajectory (config pg) ->
    sim (act pg (ClickTrajectory tr)) = initialState /\
    history (act pg (ClickTrajectory tr)) = history pg.
Proof.
  destruct pg as [cfg h ts s]. destruct cfg as [a l tr0 p].
  unfold act, setConfig, trajectoryEffect, togglePlay, toggleLoad,
    toggleAdaptive, setTrajectory.
  cbn [config history timers sim trajectory isAdaptive hasLoad isPlaying].
  rewrite TrajectoryType_eqb_refl.
  split; [reflexivity |]. split; [reflexivity |]. split; [reflexivity |].
  split; [reflexivity |].
  intros tr Hne.
  rewrite TrajectoryType_eqb_neq by (intros E; apply Hne; symmetry; exact E).
  split; reflexivity.
Qed.

(** X19: pause, any number of animation frames, resume: the page is exactly
    as it was before the pause (configuration, history, pending timers and
    every ref of the simulation). *)
Theorem pause_resume_is_identity (pg : Page) (n : nat) :
  isPlaying (config pg) = true ->
  acts pg (ClickPlayPause :: repeat AnimationFrame n ++ [ClickPlayPause]) = pg.
Proof.
  intros Hplay.
  destruct pg as [cfg h ts s]. destruct cfg as [a l tr p].
  cbn [config isPlaying] in Hplay. subst p.
  change (acts ?q (ClickPlayPause :: ?r)) with (acts (act q ClickPlayPause) r).
  rewrite acts_app.
  set (paused := act _ ClickPlayPause).
  assert (Ep : paused = mkPage (mkConfig a l tr false) h ts s).
  { subst paused. unfold act, setConfig, trajectoryEffect, togglePlay. cbn.
    rewrite TrajectoryType_eqb_refl. reflexivity. }
  assert (Ef : acts paused (repeat AnimationFrame n) = paused).
  { rewrite Ep. clear. induction n as [| n IH]; [reflexivity |].
    cbn [repeat acts fold_left]. unfold act at 2. cbn [config sim].
    rewrite updatePhysics_paused by reflexivity. exact IH. }
  rewrite Ef, Ep. cbn [acts fold_left].
  unfold act, setConfig, trajectoryEffect, togglePlay. cbn.
  rewrite TrajectoryType_eqb_refl. reflexivity.
Qed.

Lemma pause_resume_is_identity_witness :
  acts initialPage (ClickPlayPause :: repeat AnimationFrame 4 ++ [ClickPlayPause])
  = initialPage.
Proof.
  apply (pause_resume_is_identity initialPage 4). reflexivity.
Defined.

Lemma act_page_within (pg : Page) (a : Action) :
  page_within pg -> page_within (act pg a).
Proof.
  intros [Hh Hs].
  assert (R : forall old new, trails_within (trajectoryEffect old new (sim pg))).
  { intros old new. unfold trajectoryEffect.
    destruct (TrajectoryType_eqb _ _); [exact Hs |].
    split; cbn; apply Nat.le_0_l. }
  destruct a; unfold act, setConfig;
    try (split; [exact Hh | apply R]).
  - split; [apply Nat.le_0_l | apply R].
  - destruct (timers pg) as [| current rest]; [split; assumption |].
    split; [exact Hh | apply R].
  - pose proof (tick_trails_within (config pg) (sim pg) Hs) as Hw.
    unfold tick in Hw.
    destruct (updatePhysics (config pg) (sim pg)) as [s' [d |]];
      cbn [fst] in Hw; split; cbn [history sim]; try assumption.
    rewrite handleUpdate_is_boundedPush. apply boundedPush_length, Hh.
Qed.

(** X5: whatever is clicked, whenever the timers fire and however many
    frames run, starting from the freshly loaded page, the history never
    holds more than 200 samples and neither trail more than 200 points. *)
Theorem page_buffers_bounded (l : list Action) :
  let pg := acts initialPage l in
  (length (history pg) <= 200)%nat /\
  (length (trailRef (sim pg)) <= 200)%nat /\
  (length (refTrailRef (sim pg)) <= 200)%nat.
Proof.
  cbv zeta.
  assert (H : forall pg0, page_within pg0 -> page_within (acts pg0 l)).
  { induction l as [| a l IH]; intros pg0 H0; [exact H0 |].
    cbn [acts fold_left]. apply IH, act_page_within, H0. }
  destruct (H initialPage) as (Hh & Ht & Hr).
  - repeat split; cbn; apply Nat.le_0_l.
  - repeat split; assumption.
Qed.
